(** * Sync endpoints of the sekretar backend: push / pull over the tasks table

    Shallow embedding of [backend/app/api/sync.py] together with the parts of
    [backend/app/models/task.py] and [backend/app/db/database.py] that decide
    what the handlers (push, pull and status) do:

    - the [tasks] table is a list of rows whose primary key is the single
      column [id] ([primary_key=True] in the model);
    - the ORM session is created with [autoflush=False], so objects handed to
      [db.add] stay pending until [db.commit] and are invisible to the
      SELECTs issued earlier in the same request;
    - objects loaded by a SELECT are shared through the session's identity
      map: attribute assignments made in one loop iteration are seen by the
      later ones;
    - [get_db] rolls the transaction back when the handler raises.

    Python integers are unbounded, hence [Z]; timestamps are points on a
    totally ordered time line, hence [Z] as well; UUIDs are 128-bit naturals.
    Of the database only what the models declare is modelled: the columns,
    the primary key and the server defaults. Requests are taken one at a
    time; what the engine does with concurrent transactions is not covered.

    The second half, module [Auth], does the same for the [users] table:
    [backend/app/api/auth.py] and the functions of
    [backend/app/services/auth_service.py] it calls. *)

From stdpp Require Import base decidable option list sorting strings gmap.
From Stdlib Require Import ZArith Lia.

Local Open Scope Z_scope.

Definition UUID : Type := N.
Definition datetime : Type := Z.
Bind Scope N_scope with UUID.

(** ** Request / response models (pydantic classes of sync.py) *)

Module TaskSync.
Record t : Type := mk {
  id : UUID;
  title : string;
  notes : option string;
  due_date : option datetime;
  priority : option string;
  completed_at : option datetime;
  is_deleted : bool;
  version : Z
}.
End TaskSync.

Record SyncPushRequest : Type := {
  tasks : list TaskSync.t;
  last_sync_at : option datetime
}.

Record SyncPullResponse : Type := {
  pull_tasks : list TaskSync.t;
  pull_server_time : datetime
}.

Record SyncPushResponse : Type := {
  success : bool;
  conflicts : list UUID;
  server_time : datetime
}.

(** ** ORM models *)

(** Of [User] the sync handlers read the primary key only. *)
Module User.
Record t : Type := mk { id : UUID }.
End User.

Module Task.
(** A row of the [tasks] table, one field per column. *)
Record t : Type := mk {
  id : UUID;
  user_id : UUID;
  title : string;
  notes : option string;
  due_date : option datetime;
  priority : option string;
  project_id : option UUID;
  completed_at : option datetime;
  is_deleted : bool;
  created_at : datetime;
  modified_at : datetime;
  version : Z
}.

(** The keyword arguments of the [Task(...)] call in [push_changes]: a
    transient object, before any INSERT has given it its server defaults. *)
Record init : Type := new {
  init_id : UUID;
  init_user_id : UUID;
  init_title : string;
  init_notes : option string;
  init_due_date : option datetime;
  init_priority : option string;
  init_completed_at : option datetime;
  init_is_deleted : bool;
  init_version : Z
}.

(** The row an INSERT of a transient object produces: [project_id] is left
    NULL, [created_at] and [modified_at] take [server_default=func.now()]. *)
Definition inserted (db_now : datetime) (o : init) : t :=
  {| id := init_id o;
     user_id := init_user_id o;
     title := init_title o;
     notes := init_notes o;
     due_date := init_due_date o;
     priority := init_priority o;
     project_id := None;
     completed_at := init_completed_at o;
     is_deleted := init_is_deleted o;
     created_at := db_now;
     modified_at := db_now;
     version := init_version o |}.

(** The eight attribute assignments of the update branch, lines 70-77. *)
Definition assign (task_data : TaskSync.t) (now : datetime) (r : t) : t :=
  {| id := id r;
     user_id := user_id r;
     title := TaskSync.title task_data;
     notes := TaskSync.notes task_data;
     due_date := TaskSync.due_date task_data;
     priority := TaskSync.priority task_data;
     project_id := project_id r;
     completed_at := TaskSync.completed_at task_data;
     is_deleted := TaskSync.is_deleted task_data;
     created_at := created_at r;
     modified_at := now;
     version := TaskSync.version task_data + 1 |}.

(** The [TaskSync(...)] comprehension of [pull_changes], lines 123-135. *)
Definition to_sync (task : t) : TaskSync.t :=
  {| TaskSync.id := id task;
     TaskSync.title := title task;
     TaskSync.notes := notes task;
     TaskSync.due_date := due_date task;
     TaskSync.priority := priority task;
     TaskSync.completed_at := completed_at task;
     TaskSync.is_deleted := is_deleted task;
     TaskSync.version := version task |}.
End Task.

(** ** Exceptions and the session *)

Inductive exn : Type :=
  | MultipleResultsFound   (* scalar_one_or_none on more than one row *)
  | IntegrityError.        (* INSERT of an already used primary key *)

Inductive result (A : Type) : Type :=
  | Ok (a : A)
  | Raise (e : exn).
Arguments Ok {A} a.
Arguments Raise {A} e.

(** The two clocks a request reads: [datetime.utcnow()] of the application
    process and [func.now()] evaluated by the database. Each reading consumes
    one tick of the request's logical time. *)
Record Clock : Type := {
  utcnow_at : nat → datetime;
  func_now_at : nat → datetime
}.

Record Session : Type := {
  committed : list Task.t;   (* the table as of the last COMMIT *)
  persistent : list Task.t;  (* the same rows as the open transaction holds
                                them in the identity map, attribute edits
                                included *)
  pending : list Task.init;  (* session.new: added, not yet INSERTed *)
  tick : nat
}.

Definition M (A : Type) : Type := Session → result A * Session.

Definition ret {A} (a : A) : M A := λ s, (Ok a, s).
Definition raise {A} (e : exn) : M A := λ s, (Raise e, s).
Definition bind {A B} (m : M A) (k : A → M B) : M B :=
  λ s, match m s with
       | (Ok a, s') => k a s'
       | (Raise e, s') => (Raise e, s')
       end.

Notation "'let*' x ':=' m 'in' k" := (bind m (λ x, k))
  (at level 10, x name, m at level 100, k at level 200).
Notation "m ';;' k" := (bind m (λ _, k))
  (at level 100, k at level 200, right associativity).

(** [for x in xs: acc = body(x, acc)] *)
Fixpoint for_each {A B} (body : A → B → M B) (xs : list A) (acc : B) : M B :=
  match xs with
  | [] => ret acc
  | x :: xs' => let* acc' := body x acc in for_each body xs' acc'
  end.

(** ** Queries *)

(** [select(Task)] with its accumulated WHERE clause and optional
    [order_by(Task.modified_at.desc())]. *)
Record Select : Type := {
  whereclause : Task.t → bool;
  order_by_modified_at_desc : bool
}.

Definition select_Task : Select :=
  {| whereclause := λ _, true; order_by_modified_at_desc := false |}.

Definition where_ (q : Select) (p : Task.t → bool) : Select :=
  {| whereclause := λ r, whereclause q r && p r;
     order_by_modified_at_desc := order_by_modified_at_desc q |}.

Definition order_by_desc (q : Select) : Select :=
  {| whereclause := whereclause q; order_by_modified_at_desc := true |}.

(** A fetched object is a reference into the identity map (the position of
    its row) paired with the attribute values read through it. *)
Definition Obj : Type := nat * Task.t.

Fixpoint scan (p : Task.t → bool) (i : nat) (rows : list Task.t) : list Obj :=
  match rows with
  | [] => []
  | r :: rows' =>
      if p r then (i, r) :: scan p (S i) rows' else scan p (S i) rows'
  end.

(** [a] comes no later than [b] in descending [modified_at] order. *)
Definition modified_desc (a b : Obj) : Prop :=
  Task.modified_at (snd b) ≤ Task.modified_at (snd a).

Global Instance modified_desc_dec : RelDecision modified_desc.
Proof. intros a b. unfold modified_desc. apply _. Defined.

(** The rows matching the WHERE clause, in table order, then sorted if the
    query asks for it. Rows that tie on [modified_at] come out in an order the
    engine is free to choose; the merge sort fixes one such choice. *)
Definition run_query (q : Select) (rows : list Task.t) : list Obj :=
  let hits := scan (whereclause q) 0%nat rows in
  if order_by_modified_at_desc q then merge_sort modified_desc hits else hits.

(** ** Session operations *)

(** [await db.execute(query)]: no flush happens first ([autoflush=False]). *)
Definition db_execute (q : Select) : M (list Obj) :=
  λ s, (Ok (run_query q (persistent s)), s).

Definition scalar_one_or_none (res : list Obj) : M (option Obj) :=
  match res with
  | [] => ret None
  | [o] => ret (Some o)
  | _ :: _ :: _ => raise MultipleResultsFound
  end.

(** [result.scalars().all()] *)
Definition scalars_all (res : list Obj) : list Task.t := snd <$> res.

Definition utcnow (clk : Clock) : M datetime :=
  λ s, (Ok (utcnow_at clk (tick s)),
        {| committed := committed s; persistent := persistent s;
           pending := pending s; tick := S (tick s) |}).

(** Attribute assignment on a loaded object: the identity map entry changes,
    the table does not until the flush. *)
Definition db_set (ref : nat) (r : Task.t) : M unit :=
  λ s, (Ok (),
        {| committed := committed s; persistent := <[ref := r]> (persistent s);
           pending := pending s; tick := tick s |}).

Definition db_add (o : Task.init) : M unit :=
  λ s, (Ok (),
        {| committed := committed s; persistent := persistent s;
           pending := pending s ++ [o]; tick := tick s |}).

(** INSERT of the pending objects, in the order they were added. The primary
    key [id] must be new, whoever owns the row that already has it. *)
Fixpoint insert_all (clk : Clock) (news : list Task.init)
    (rows : list Task.t) (n : nat) : result (list Task.t) * nat :=
  match news with
  | [] => (Ok rows, n)
  | o :: news' =>
      if bool_decide (Task.init_id o ∈ Task.id <$> rows)
      then (Raise IntegrityError, n)
      else insert_all clk news'
             (rows ++ [Task.inserted (func_now_at clk n) o]) (S n)
  end.

(** [await db.commit()]: flush (the UPDATEs of edited objects are already in
    [persistent]; then the INSERTs), then COMMIT. *)
Definition db_commit (clk : Clock) : M unit :=
  λ s, match insert_all clk (pending s) (persistent s) (tick s) with
       | (Ok rows, n) =>
           (Ok (), {| committed := rows; persistent := rows;
                      pending := []; tick := n |})
       | (Raise e, n) =>
           (Raise e, {| committed := committed s; persistent := persistent s;
                        pending := pending s; tick := n |})
       end.

Definition db_rollback (s : Session) : Session :=
  {| committed := committed s; persistent := committed s;
     pending := []; tick := tick s |}.

(** ** database.py: [get_db] *)

Definition open_session (table : list Task.t) (t0 : nat) : Session :=
  {| committed := table; persistent := table; pending := []; tick := t0 |}.

(** [yield session; commit] on success, [rollback; raise] on an exception.
    The value is the handler's outcome and the table the request leaves. *)
Definition get_db {A} (clk : Clock) (handler : M A)
    (table : list Task.t) (t0 : nat) : result A * list Task.t :=
  match handler (open_session table t0) with
  | (Ok a, s) =>
      match db_commit clk s with
      | (Ok _, s') => (Ok a, committed s')
      | (Raise e, s') => (Raise e, committed (db_rollback s'))
      end
  | (Raise e, s) => (Raise e, committed (db_rollback s))
  end.

(** ** sync.py: [push_changes] *)

(** [select(Task).where(and_(Task.id == task_data.id,
                            Task.user_id == current_user.id))] *)
Definition task_of (current_user : User.t) (task_data : TaskSync.t) : Select :=
  where_ select_Task
    (λ r, bool_decide (Task.id r = TaskSync.id task_data)
          && bool_decide (Task.user_id r = User.id current_user)).

(** [new_task = Task(id=task_data.id, user_id=current_user.id, ...)],
    lines 81-91. *)
Definition new_task (current_user : User.t) (task_data : TaskSync.t)
    : Task.init :=
  {| Task.init_id := TaskSync.id task_data;
     Task.init_user_id := User.id current_user;
     Task.init_title := TaskSync.title task_data;
     Task.init_notes := TaskSync.notes task_data;
     Task.init_due_date := TaskSync.due_date task_data;
     Task.init_priority := TaskSync.priority task_data;
     Task.init_completed_at := TaskSync.completed_at task_data;
     Task.init_is_deleted := TaskSync.is_deleted task_data;
     Task.init_version := TaskSync.version task_data |}.

(** One iteration of the loop of lines 56-92; [conflicts] is the list the
    handler appends to. *)
Definition push_task (clk : Clock) (current_user : User.t)
    (task_data : TaskSync.t) (conflicts : list UUID) : M (list UUID) :=
  let* result := db_execute (task_of current_user task_data) in
  let* existing_task := scalar_one_or_none result in
  match existing_task with
  | Some (ref, existing) =>
      if bool_decide (Task.version existing > TaskSync.version task_data)
      then ret (conflicts ++ [TaskSync.id task_data])
      else
        let* now := utcnow clk in
        db_set ref (Task.assign task_data now existing);;
        ret conflicts
  | None =>
      db_add (new_task current_user task_data);;
      ret conflicts
  end.

Definition push_changes (clk : Clock) (data : SyncPushRequest)
    (current_user : User.t) : M SyncPushResponse :=
  let* conflicts := for_each (push_task clk current_user) (tasks data) [] in
  db_commit clk;;
  let* now := utcnow clk in
  ret {| success := true; conflicts := conflicts; server_time := now |}.

(** ** sync.py: [pull_changes] *)

Definition pull_query (since : option datetime) (current_user : User.t)
    : Select :=
  let query :=
    where_ select_Task
      (λ r, bool_decide (Task.user_id r = User.id current_user)) in
  let query :=
    match since with
    | Some since => where_ query (λ r, bool_decide (Task.modified_at r > since))
    | None => query
    end in
  order_by_desc query.

Definition pull_changes (clk : Clock) (since : option datetime)
    (current_user : User.t) : M SyncPullResponse :=
  let* result := db_execute (pull_query since current_user) in
  let tasks := scalars_all result in
  let task_syncs := Task.to_sync <$> tasks in
  let* now := utcnow clk in
  ret {| pull_tasks := task_syncs; pull_server_time := now |}.

(** ** The two endpoints as FastAPI runs them, behind [Depends(get_db)] *)

Definition push_endpoint (clk : Clock) (data : SyncPushRequest)
    (current_user : User.t) (table : list Task.t) (t0 : nat)
    : result SyncPushResponse * list Task.t :=
  get_db clk (push_changes clk data current_user) table t0.

Definition pull_endpoint (clk : Clock) (since : option datetime)
    (current_user : User.t) (table : list Task.t) (t0 : nat)
    : result SyncPullResponse * list Task.t :=
  get_db clk (pull_changes clk since current_user) table t0.

(** ** sync.py: [sync_status] *)

(** The dict the status endpoint returns; [user_id] is sent as [str()] of
    the UUID held here. *)
Record SyncStatus : Type := {
  status_user_id : UUID;
  total_tasks : nat;
  last_modified_at : option datetime;
  status_server_time : datetime
}.

(** [query.limit(n)]: the database cuts the ordered result after [n] rows. *)
Definition limit (n : nat) (res : list Obj) : list Obj := take n res.

(** [select(Task).where(and_(Task.user_id == current_user.id,
                            Task.is_deleted == False))] *)
Definition live_tasks_of (current_user : User.t) : Select :=
  where_ select_Task
    (λ r, bool_decide (Task.user_id r = User.id current_user)
          && bool_decide (Task.is_deleted r = false)).

(** [select(Task).where(Task.user_id == current_user.id)
       .order_by(Task.modified_at.desc())], before its [.limit(1)]. *)
Definition latest_tasks_of (current_user : User.t) : Select :=
  order_by_desc
    (where_ select_Task
       (λ r, bool_decide (Task.user_id r = User.id current_user))).

Definition sync_status (clk : Clock) (current_user : User.t) : M SyncStatus :=
  let* result := db_execute (live_tasks_of current_user) in
  let total_tasks := length (scalars_all result) in
  let* result := db_execute (latest_tasks_of current_user) in
  let* last_task := scalar_one_or_none (limit 1 result) in
  let* now := utcnow clk in
  ret {| status_user_id := User.id current_user;
         total_tasks := total_tasks;
         last_modified_at :=
           match last_task with
           | Some (_, task) => Some (Task.modified_at task)
           | None => None
           end;
         status_server_time := now |}.

Definition status_endpoint (clk : Clock) (current_user : User.t)
    (table : list Task.t) (t0 : nat) : result SyncStatus * list Task.t :=
  get_db clk (sync_status clk current_user) table t0.

(** ** Sample data used to exercise the definitions *)

Definition clock0 : Clock :=
  {| utcnow_at := λ n, 1000 + Z.of_nat n; func_now_at := λ n, 2000 + Z.of_nat n |}.

Definition alice : User.t := User.mk 1.

Definition row (i u : UUID) (v : Z) (m : datetime) : Task.t :=
  Task.mk i u "t" None None None None None false 0 m v.

Definition rec (i : UUID) (v : Z) : TaskSync.t :=
  TaskSync.mk i "x" None None None None false v.

Definition req (l : list TaskSync.t) : SyncPushRequest :=
  {| tasks := l; last_sync_at := None |}.

(** A client that sends the same push request again and again, the [k]-th
    time when the request clock stands at the [k]-th element of [starts]. *)
Fixpoint resend (clk : Clock) (data : SyncPushRequest) (current_user : User.t)
    (starts : list nat) (table : list Task.t)
    : list (result SyncPushResponse) * list Task.t :=
  match starts with
  | [] => ([], table)
  | t0 :: starts' =>
      let '(r, table') := push_endpoint clk data current_user table t0 in
      let '(rs, table'') := resend clk data current_user starts' table' in
      (r :: rs, table'')
  end.

(** ** The primary key constraint *)

(** [id] is the primary key of [tasks]: no two rows share it. *)
Definition pk_unique (rows : list Task.t) : Prop := NoDup (Task.id <$> rows).

(** The caller owns a row with the id of [task_data]. *)
Definition owned (current_user : User.t) (task_data : TaskSync.t)
    (r : Task.t) : Prop :=
  Task.id r = TaskSync.id task_data ∧ Task.user_id r = User.id current_user.

Global Instance owned_dec current_user task_data r :
  Decision (owned current_user task_data r).
Proof. unfold owned. apply _. Defined.

(** The two columns the push lookup filters on; no assignment touches them. *)
Definition key (r : Task.t) : UUID * UUID := (Task.id r, Task.user_id r).

(** The rows a pull is meant to deliver: the caller's own, and with a cursor
    only those modified strictly after it. *)
Definition pulled (since : option datetime) (current_user : User.t)
    (r : Task.t) : Prop :=
  Task.user_id r = User.id current_user ∧
  match since with
  | Some cursor => Task.modified_at r > cursor
  | None => True
  end.

Global Instance pulled_dec since current_user r :
  Decision (pulled since current_user r).
Proof. unfold pulled. destruct since; apply _. Defined.

(** [a] before [b] is in order when [a] was modified no earlier than [b]. *)
Definition newer_first (a b : Task.t) : Prop :=
  Task.modified_at b ≤ Task.modified_at a.

(** A tombstone row, for the examples. *)
Definition tomb (i u : UUID) (v : Z) (m : datetime) : Task.t :=
  Task.mk i u "t" None None None None None true 0 m v.

(** The caller's rows, and those of them that are not tombstones. *)
Definition mine (current_user : User.t) (r : Task.t) : Prop :=
  Task.user_id r = User.id current_user.

Definition live (current_user : User.t) (r : Task.t) : Prop :=
  Task.user_id r = User.id current_user ∧ Task.is_deleted r = false.

Global Instance mine_dec current_user r : Decision (mine current_user r).
Proof. unfold mine. apply _. Defined.

Global Instance live_dec current_user r : Decision (live current_user r).
Proof. unfold live. apply _. Defined.

(** The columns no statement of the push handler assigns. *)
Definition fixed_columns (r : Task.t)
    : UUID * UUID * option UUID * datetime :=
  (Task.id r, Task.user_id r, Task.project_id r, Task.created_at r).

(** The records of a batch for which the caller holds no row in [rows]: the
    ones the loop turns into new objects. *)
Definition new_records (current_user : User.t) (rows : list Task.t)
    (batch : list TaskSync.t) : list TaskSync.t :=
  filter (λ task_data,
            (TaskSync.id task_data, User.id current_user) ∉ key <$> rows)
         batch.

(** The caller holds a row with the id of [task_data] at a version above the
    one sent. *)
Definition stale (current_user : User.t) (rows : list Task.t)
    (task_data : TaskSync.t) : Prop :=
  Exists (λ r, owned current_user task_data r ∧
               Task.version r > TaskSync.version task_data) rows.

Global Instance stale_dec current_user rows task_data :
  Decision (stale current_user rows task_data).
Proof. unfold stale. apply _. Defined.

(** A record as sent, one version up. *)
Definition bumped (task_data : TaskSync.t) : TaskSync.t :=
  {| TaskSync.id := TaskSync.id task_data;
     TaskSync.title := TaskSync.title task_data;
     TaskSync.notes := TaskSync.notes task_data;
     TaskSync.due_date := TaskSync.due_date task_data;
     TaskSync.priority := TaskSync.priority task_data;
     TaskSync.completed_at := TaskSync.completed_at task_data;
     TaskSync.is_deleted := TaskSync.is_deleted task_data;
     TaskSync.version := TaskSync.version task_data + 1 |}.

(** * Authentication: services/auth_service.py and api/auth.py

    The [users] table, the session that works on it, and the three
    endpoints [register], [login] and [apple_sign_in] with the service
    functions they call. What the libraries compute is taken as given: the
    bcrypt context of passlib, [jwt.encode] of python-jose and [uuid.uuid4]
    are fields of an environment record. Durations and the distance between
    two timestamps count microseconds, the resolution of Python's
    [datetime]. *)

Module Auth.

Declare Scope auth_scope.
Local Open Scope auth_scope.

Definition timedelta : Type := Z.

(** [timedelta(minutes=m)] *)
Definition minutes (m : Z) : timedelta := m * 60000000.

(** ** config.py: the settings the token code reads *)

Record Settings : Type := {
  jwt_secret : string;
  jwt_algorithm : string;
  access_token_expire_minutes : Z
}.

(** The values [Settings()] takes when the environment sets none. *)
Definition default_settings : Settings :=
  {| jwt_secret := "your-secret-key-change-in-production";
     jwt_algorithm := "HS256";
     access_token_expire_minutes := 60 * 24 * 7 |}.

(** ** models/user.py *)

Module User.
Record t : Type := mk {
  id : UUID;
  email : string;
  apple_id : option string;
  tier : string;
  created_at : datetime;
  last_active_at : option datetime;
  preferences : list (string * string);  (* the JSON object; this code only
                                            ever stores the default, [{}] *)
  hashed_password : option string
}.

(** The keyword arguments [create_user] passes to [User(...)]. *)
Record init : Type := new {
  init_email : string;
  init_hashed_password : option string;
  init_apple_id : option string;
  init_tier : string
}.

(** The row an INSERT of a new object stores: [id] from the Python-side
    default [uuid.uuid4], [created_at] from the server default [func.now()],
    [preferences] from the default [dict], [last_active_at] NULL. *)
Definition inserted (uuid : UUID) (db_now : datetime) (o : init) : t :=
  {| id := uuid;
     email := init_email o;
     apple_id := init_apple_id o;
     tier := init_tier o;
     created_at := db_now;
     last_active_at := None;
     preferences := [];
     hashed_password := init_hashed_password o |}.

(** [user.apple_id = apple_id] *)
Definition set_apple_id (a : string) (r : t) : t :=
  {| id := id r;
     email := email r;
     apple_id := Some a;
     tier := tier r;
     created_at := created_at r;
     last_active_at := last_active_at r;
     preferences := preferences r;
     hashed_password := hashed_password r |}.
End User.

(** ** Request / response models (pydantic classes of auth.py) *)

Module UserRegister.
Record t : Type := mk { email : string; password : string }.
End UserRegister.

Module UserLogin.
Record t : Type := mk { email : string; password : string }.
End UserLogin.

Module AppleSignIn.
Record t : Type := mk {
  apple_id : string;
  email : string;
  full_name : option string
}.
End AppleSignIn.

(** [user_id] is sent as [str()] of the UUID held here. *)
Record TokenResponse : Type := {
  access_token : string;
  token_type : string;
  user_id : UUID;
  email : string;
  tier : string
}.

(** ** The libraries *)

(** A value of the claims dict handed to [jwt.encode]: the text of a UUID,
    or a [datetime]. *)
Inductive claim : Type :=
  | Str_of_uuid (u : UUID)
  | Datetime (t : datetime).

Global Instance claim_eq_dec : EqDecision claim.
Proof. solve_decision. Defined.

(** [pwd_context.hash] draws a salt, hence the extra argument; it and
    [pwd_context.verify] raise on input they do not accept, which is [None]
    here. *)
Record Env : Type := {
  settings : Settings;
  pwd_context_hash : nat → string → option string;
  pwd_context_verify : string → string → option bool;
  jwt_encode : gmap string claim → string → string → string;
  uuid4 : nat → UUID
}.

(** ** Exceptions and the session *)

Inductive exn : Type :=
  | HTTPException (status_code : nat) (detail : string)
  | MultipleResultsFound   (* scalar_one_or_none on more than one row *)
  | IntegrityError         (* a primary key or UNIQUE constraint is broken *)
  | InvalidRequestError    (* refresh of an object that has no row *)
  | PasslibError.          (* whatever the password context raises *)

Inductive result (A : Type) : Type :=
  | Ok (a : A)
  | Raise (e : exn).
Arguments Ok {A} a.
Arguments Raise {A} e.

Record Session : Type := {
  committed : list User.t;   (* the table as of the last COMMIT *)
  persistent : list User.t;  (* the rows as the open transaction holds them,
                                attribute edits included *)
  dirty : list nat;          (* the loaded objects that were assigned to *)
  pending : list User.init;  (* session.new: added, not yet INSERTed *)
  tick : nat
}.

Definition M (A : Type) : Type := Session → result A * Session.

Definition ret {A} (a : A) : M A := λ s, (Ok a, s).
Definition raise {A} (e : exn) : M A := λ s, (Raise e, s).
Definition bind {A B} (m : M A) (k : A → M B) : M B :=
  λ s, match m s with
       | (Ok a, s') => k a s'
       | (Raise e, s') => (Raise e, s')
       end.

Notation "'let*' x ':=' m 'in' k" := (bind m (λ x, k))
  (at level 10, x name, m at level 100, k at level 200) : auth_scope.
Notation "m ';;' k" := (bind m (λ _, k))
  (at level 100, k at level 200, right associativity) : auth_scope.

(** A fetched object: the position of its row and the values read. *)
Definition Obj : Type := nat * User.t.

Fixpoint scan (p : User.t → bool) (i : nat) (rows : list User.t) : list Obj :=
  match rows with
  | [] => []
  | r :: rows' =>
      if p r then (i, r) :: scan p (S i) rows' else scan p (S i) rows'
  end.

(** [await db.execute(select(User).where(p))]; no flush happens first. *)
Definition db_execute (p : User.t → bool) : M (list Obj) :=
  λ s, (Ok (scan p 0%nat (persistent s)), s).

Definition scalar_one_or_none (res : list Obj) : M (option Obj) :=
  match res with
  | [] => ret None
  | [o] => ret (Some o)
  | _ :: _ :: _ => raise MultipleResultsFound
  end.

Definition utcnow (clk : Clock) : M datetime :=
  λ s, (Ok (utcnow_at clk (tick s)),
        {| committed := committed s; persistent := persistent s;
           dirty := dirty s; pending := pending s; tick := S (tick s) |}).

(** Attribute assignment on a loaded object. *)
Definition db_set (ref : nat) (r : User.t) : M unit :=
  λ s, (Ok (),
        {| committed := committed s; persistent := <[ref := r]> (persistent s);
           dirty := dirty s ++ [ref]; pending := pending s; tick := tick s |}).

(** [db.add(user)]; the value is the place the object's row will take, by
    which the session knows the object from then on. *)
Definition db_add (o : User.init) : M nat :=
  λ s, (Ok (length (persistent s) + length (pending s))%nat,
        {| committed := committed s; persistent := persistent s;
           dirty := dirty s; pending := pending s ++ [o]; tick := tick s |}).

(** The constraints of the table: [id] is the primary key, [email] is
    UNIQUE, [apple_id] is UNIQUE where it is not NULL. [r] cannot be stored
    next to [others] when it breaks one of them. *)
Definition violates (others : list User.t) (r : User.t) : bool :=
  bool_decide (User.id r ∈ User.id <$> others)
  || bool_decide (User.email r ∈ User.email <$> others)
  || match User.apple_id r with
     | Some a => bool_decide (Some a ∈ User.apple_id <$> others)
     | None => false
     end.

(** The UPDATE of an edited object is accepted when its row, as edited, fits
    next to all the other rows. (No handler edits more than one object.) *)
Definition update_ok (rows : list User.t) (ref : nat) : bool :=
  match rows !! ref with
  | Some r => negb (violates (delete ref rows) r)
  | None => true
  end.

(** INSERT of the pending objects, in the order they were added. *)
Fixpoint insert_all (env : Env) (clk : Clock) (news : list User.init)
    (rows : list User.t) (n : nat) : result (list User.t) * nat :=
  match news with
  | [] => (Ok rows, n)
  | o :: news' =>
      let r := User.inserted (uuid4 env n) (func_now_at clk n) o in
      if violates rows r
      then (Raise IntegrityError, n)
      else insert_all env clk news' (rows ++ [r]) (S n)
  end.

(** [await db.commit()]: flush (UPDATEs, then INSERTs), then COMMIT. *)
Definition db_commit (env : Env) (clk : Clock) : M unit :=
  λ s, if forallb (update_ok (persistent s)) (dirty s)
       then
         match insert_all env clk (pending s) (persistent s) (tick s) with
         | (Ok rows, n) =>
             (Ok (), {| committed := rows; persistent := rows; dirty := [];
                        pending := []; tick := n |})
         | (Raise e, n) =>
             (Raise e, {| committed := committed s; persistent := persistent s;
                          dirty := dirty s; pending := pending s; tick := n |})
         end
       else (Raise IntegrityError, s).

(** [await db.refresh(user)]: the row of the object is read again. *)
Definition db_refresh (ref : nat) : M Obj :=
  λ s, match persistent s !! ref with
       | Some r => (Ok (ref, r), s)
       | None => (Raise InvalidRequestError, s)
       end.

Definition db_rollback (s : Session) : Session :=
  {| committed := committed s; persistent := committed s; dirty := [];
     pending := []; tick := tick s |}.

Definition open_session (table : list User.t) (t0 : nat) : Session :=
  {| committed := table; persistent := table; dirty := []; pending := [];
     tick := t0 |}.

(** database.py, [get_db], over the [users] table. *)
Definition get_db {A} (env : Env) (clk : Clock) (handler : M A)
    (table : list User.t) (t0 : nat) : result A * list User.t :=
  match handler (open_session table t0) with
  | (Ok a, s) =>
      match db_commit env clk s with
      | (Ok _, s') => (Ok a, committed s')
      | (Raise e, s') => (Raise e, committed (db_rollback s'))
      end
  | (Raise e, s) => (Raise e, committed (db_rollback s))
  end.

(** ** services/auth_service.py *)

(** Truth value of a [str]: every string but the empty one. *)
Definition truthy (s : string) : bool := negb (String.eqb s EmptyString).

Definition verify_password (env : Env) (plain_password hashed_password : string)
    : M bool :=
  match pwd_context_verify env plain_password hashed_password with
  | Some b => ret b
  | None => raise PasslibError
  end.

Definition get_password_hash (env : Env) (password : string) : M string :=
  λ s, match pwd_context_hash env (tick s) password with
       | Some h =>
           (Ok h, {| committed := committed s; persistent := persistent s;
                     dirty := dirty s; pending := pending s;
                     tick := S (tick s) |})
       | None => (Raise PasslibError, s)
       end.

(** [if expires_delta:] is false for [None] and for a zero duration. *)
Definition create_access_token (env : Env) (clk : Clock)
    (data : gmap string claim) (expires_delta : option timedelta) : M string :=
  let to_encode := data in
  let* expire :=
    match expires_delta with
    | Some delta =>
        if bool_decide (delta ≠ 0)
        then let* now := utcnow clk in ret (now + delta)
        else let* now := utcnow clk in
             ret (now + minutes (access_token_expire_minutes (settings env)))
    | None =>
        let* now := utcnow clk in
        ret (now + minutes (access_token_expire_minutes (settings env)))
    end in
  let to_encode := <["exp" := Datetime expire]> to_encode in
  let encoded_jwt :=
    jwt_encode env to_encode (jwt_secret (settings env))
      (jwt_algorithm (settings env)) in
  ret encoded_jwt.

Definition get_user_by_email (email : string) : M (option Obj) :=
  let* result := db_execute (λ r, bool_decide (User.email r = email)) in
  scalar_one_or_none result.

Definition get_user_by_apple_id (apple_id : string) : M (option Obj) :=
  let* result :=
    db_execute (λ r, bool_decide (User.apple_id r = Some apple_id)) in
  scalar_one_or_none result.

(** [get_password_hash(password) if password else None] *)
Definition create_user (env : Env) (clk : Clock) (email : string)
    (password apple_id : option string) : M Obj :=
  let* hashed_password :=
    match password with
    | Some password =>
        if truthy password
        then let* h := get_password_hash env password in ret (Some h)
        else ret None
    | None => ret None
    end in
  let user :=
    {| User.init_email := email;
       User.init_hashed_password := hashed_password;
       User.init_apple_id := apple_id;
       User.init_tier := "free" |} in
  let* ref := db_add user in
  db_commit env clk;;
  db_refresh ref.

(** ** api/auth.py *)

(** The last lines the three endpoints share: the token for
    [{"sub": str(user.id)}] and the response built from the user. *)
Definition token_response (env : Env) (clk : Clock) (user : User.t)
    : M TokenResponse :=
  let* access_token :=
    create_access_token env clk {["sub" := Str_of_uuid (User.id user)]} None in
  ret {| access_token := access_token;
         token_type := "bearer";
         user_id := User.id user;
         email := User.email user;
         tier := User.tier user |}.

Definition register (env : Env) (clk : Clock) (data : UserRegister.t)
    : M TokenResponse :=
  let* existing_user := get_user_by_email (UserRegister.email data) in
  match existing_user with
  | Some _ => raise (HTTPException 400 "Email already registered")
  | None =>
      let* user :=
        create_user env clk (UserRegister.email data)
          (Some (UserRegister.password data)) None in
      token_response env clk (snd user)
  end.

(** [not user or not user.hashed_password] holds when there is no row, when
    the hash is NULL and when it is the empty string. *)
Definition login (env : Env) (clk : Clock) (data : UserLogin.t)
    : M TokenResponse :=
  let* user := get_user_by_email (UserLogin.email data) in
  match user with
  | Some (_, found) =>
      match User.hashed_password found with
      | Some h =>
          if truthy h
          then
            let* ok := verify_password env (UserLogin.password data) h in
            if ok
            then token_response env clk found
            else raise (HTTPException 401 "Incorrect email or password")
          else raise (HTTPException 401 "Incorrect email or password")
      | None => raise (HTTPException 401 "Incorrect email or password")
      end
  | None => raise (HTTPException 401 "Incorrect email or password")
  end.

Definition apple_sign_in (env : Env) (clk : Clock) (data : AppleSignIn.t)
    : M TokenResponse :=
  let* user := get_user_by_apple_id (AppleSignIn.apple_id data) in
  let* user :=
    match user with
    | Some user => ret user
    | None =>
        let* user := get_user_by_email (AppleSignIn.email data) in
        match user with
        | Some (ref, found) =>
            db_set ref (User.set_apple_id (AppleSignIn.apple_id data) found);;
            db_commit env clk;;
            db_refresh ref
        | None =>
            create_user env clk (AppleSignIn.email data) None
              (Some (AppleSignIn.apple_id data))
        end
    end in
  token_response env clk (snd user).

(** ** The three endpoints as FastAPI runs them, behind [Depends(get_db)] *)

Definition register_endpoint (env : Env) (clk : Clock) (data : UserRegister.t)
    (table : list User.t) (t0 : nat) : result TokenResponse * list User.t :=
  get_db env clk (register env clk data) table t0.

Definition login_endpoint (env : Env) (clk : Clock) (data : UserLogin.t)
    (table : list User.t) (t0 : nat) : result TokenResponse * list User.t :=
  get_db env clk (login env clk data) table t0.

Definition apple_endpoint (env : Env) (clk : Clock) (data : AppleSignIn.t)
    (table : list User.t) (t0 : nat) : result TokenResponse * list User.t :=
  get_db env clk (apple_sign_in env clk data) table t0.

(** ** The constraints of the table, as predicates *)

Definition users_unique (rows : list User.t) : Prop :=
  NoDup (User.id <$> rows) ∧ NoDup (User.email <$> rows) ∧
  NoDup (omap User.apple_id rows).

Global Instance users_unique_dec rows : Decision (users_unique rows).
Proof. unfold users_unique. apply _. Defined.

(** The claims [token_response] signs for [user] when it reads the clock at
    tick [n], and the answer it gives: [sub] is the text of the user's id,
    [exp] lies [access_token_expire_minutes] after the reading. *)
Definition claims_for (env : Env) (clk : Clock) (user : User.t) (n : nat)
    : gmap string claim :=
  <["exp" := Datetime (utcnow_at clk n +
                       minutes (access_token_expire_minutes (settings env)))]>
    {["sub" := Str_of_uuid (User.id user)]}.

Definition answer_for (env : Env) (clk : Clock) (user : User.t) (n : nat)
    : TokenResponse :=
  {| access_token :=
       jwt_encode env (claims_for env clk user n) (jwt_secret (settings env))
         (jwt_algorithm (settings env));
     token_type := "bearer";
     user_id := User.id user;
     email := User.email user;
     tier := User.tier user |}.

(** What [get_password_hash(password) if password else None] evaluates to
    when the clock stands at [n], with the tick reached; [None] when the
    password context raises. *)
Definition hashed_for (env : Env) (password : option string) (n : nat)
    : option (option string * nat) :=
  match password with
  | Some password =>
      if truthy password
      then match pwd_context_hash env n password with
           | Some h => Some (Some h, S n)
           | None => None
           end
      else Some (None, n)
  | None => Some (None, n)
  end.

(** The row [create_user] stores. *)
Definition created (env : Env) (clk : Clock) (email : string)
    (hashed_password apple_id : option string) (n : nat) : User.t :=
  User.inserted (uuid4 env n) (func_now_at clk n)
    {| User.init_email := email;
       User.init_hashed_password := hashed_password;
       User.init_apple_id := apple_id;
       User.init_tier := "free" |}.

(** ** Sample data used to exercise the definitions *)

Definition env0 : Env :=
  {| settings := default_settings;
     pwd_context_hash := λ _ password, Some ("$2b$" ++ password)%string;
     pwd_context_verify :=
       λ plain hashed, Some (String.eqb hashed ("$2b$" ++ plain));
     jwt_encode := λ _ _ _, "jwt";
     uuid4 := λ n, (100 + N.of_nat n)%N |}.

Definition account (i : UUID) (e : string) (a h : option string) : User.t :=
  User.mk i e a "free" 0 None [] h.

End Auth.

(** * Properties *)

(** ** Point lookups *)

Section Lookup.
Context (p : Task.t → bool).

Lemma scan_none rows k :
  (∀ j r, rows !! j = Some r → p r = false) → scan p k rows = [].
Proof.
  revert k. induction rows as [|r rows IH]; intros k Hp; simpl; [done|].
  rewrite (Hp 0%nat r eq_refl). apply IH. intros j r' Hj. by apply (Hp (S j)).
Qed.

Lemma scan_single rows k i cur :
  rows !! i = Some cur → p cur = true →
  (∀ j r, rows !! j = Some r → p r = true → j = i) →
  scan p k rows = [((k + i)%nat, cur)].
Proof.
  revert k i. induction rows as [|r rows IH]; intros k i Hi Hc Hu; [done|].
  destruct i as [|i]; simpl in *.
  - injection Hi as ->. rewrite Hc, Nat.add_0_r. f_equal.
    apply scan_none. intros j r' Hj.
    destruct (p r') eqn:Hr'; [|done].
    by specialize (Hu (S j) r' Hj Hr').
  - destruct (p r) eqn:Hr.
    + by specialize (Hu 0%nat r eq_refl Hr).
    + rewrite (IH (S k) i Hi Hc).
      * do 2 f_equal. lia.
      * intros j r' Hj Hr'. specialize (Hu (S j) r' Hj Hr'). lia.
Qed.

Lemma elem_of_scan rows k j r :
  (j, r) ∈ scan p k rows ↔
  ∃ j', j = (k + j')%nat ∧ rows !! j' = Some r ∧ p r = true.
Proof.
  revert k. induction rows as [|r0 rows IH]; intros k; simpl.
  - split; [by intros ?%elem_of_nil | by intros (? & _ & ? & _)].
  - destruct (p r0) eqn:Hr0.
    + rewrite elem_of_cons, IH. split.
      * intros [[= -> ->] | (j' & -> & Hj' & Hp)].
        -- exists 0%nat. split_and!; [lia | done | done].
        -- exists (S j'). split_and!; [lia | done | done].
      * intros ([|j'] & -> & Hj' & Hp); simpl in Hj'.
        -- left. injection Hj' as ->. f_equal. lia.
        -- right. exists j'. split_and!; [lia | done | done].
    + rewrite IH. split.
      * intros (j' & -> & Hj' & Hp). exists (S j'). split_and!; [lia|done|done].
      * intros ([|j'] & -> & Hj' & Hp); simpl in Hj'.
        -- injection Hj' as ->. congruence.
        -- exists j'. split_and!; [lia | done | done].
Qed.

Lemma scan_snd rows k : snd <$> scan p k rows = filter (λ r, p r = true) rows.
Proof.
  revert k. induction rows as [|r rows IH]; intros k; simpl; [done|].
  rewrite filter_cons. destruct (p r) eqn:Hr; simpl; [f_equal|]; apply IH.
Qed.
End Lookup.

Lemma pk_unique_lookup rows i j ri rj :
  pk_unique rows → rows !! i = Some ri → rows !! j = Some rj →
  Task.id ri = Task.id rj → i = j.
Proof.
  intros Hpk Hi Hj Heq.
  apply (NoDup_lookup (Task.id <$> rows) i j (Task.id ri)); [done|..].
  - by rewrite list_lookup_fmap, Hi.
  - by rewrite list_lookup_fmap, Hj, Heq.
Qed.

Lemma task_of_hit current_user task_data rows i cur :
  pk_unique rows → rows !! i = Some cur → owned current_user task_data cur →
  run_query (task_of current_user task_data) rows = [(i, cur)].
Proof.
  intros Hpk Hi [Hid Hu]. unfold run_query; simpl.
  rewrite (scan_single _ rows 0 i cur Hi); [done|..].
  - by rewrite !bool_decide_eq_true_2.
  - intros j r Hj Hr. simpl in Hr.
    apply andb_true_iff in Hr as [Hr _]. apply bool_decide_eq_true_1 in Hr.
    apply (pk_unique_lookup rows j i r cur); congruence.
Qed.

Lemma task_of_miss current_user task_data rows :
  (∀ r, r ∈ rows → ¬ owned current_user task_data r) →
  run_query (task_of current_user task_data) rows = [].
Proof.
  intros Hno. unfold run_query; simpl. apply scan_none. intros j r Hj.
  apply not_true_is_false. intros Hr. apply (Hno r).
  - by eapply list_elem_of_lookup_2.
  - simpl in Hr. apply andb_true_iff in Hr as [Hi Hu].
    split; by eapply bool_decide_eq_true_1.
Qed.

(** ** One loop iteration, by cases *)

Section PushTask.
Context (clk : Clock) (current_user : User.t) (task_data : TaskSync.t).

Lemma push_task_update conflicts s i cur :
  pk_unique (persistent s) → persistent s !! i = Some cur →
  owned current_user task_data cur →
  Task.version cur ≤ TaskSync.version task_data →
  push_task clk current_user task_data conflicts s =
    (Ok conflicts,
     {| committed := committed s;
        persistent :=
          <[i := Task.assign task_data (utcnow_at clk (tick s)) cur]>
            (persistent s);
        pending := pending s;
        tick := S (tick s) |}).
Proof.
  intros Hpk Hi Hown Hle. unfold push_task, bind, db_execute at 1.
  rewrite (task_of_hit _ _ _ i cur Hpk Hi Hown). simpl.
  rewrite bool_decide_eq_false_2 by lia. done.
Qed.

Lemma push_task_conflict conflicts s i cur :
  pk_unique (persistent s) → persistent s !! i = Some cur →
  owned current_user task_data cur →
  Task.version cur > TaskSync.version task_data →
  push_task clk current_user task_data conflicts s =
    (Ok (conflicts ++ [TaskSync.id task_data]), s).
Proof.
  intros Hpk Hi Hown Hgt. unfold push_task, bind, db_execute at 1.
  rewrite (task_of_hit _ _ _ i cur Hpk Hi Hown). simpl.
  rewrite bool_decide_eq_true_2 by done. done.
Qed.

Lemma push_task_create conflicts s :
  (∀ r, r ∈ persistent s → ¬ owned current_user task_data r) →
  push_task clk current_user task_data conflicts s =
    (Ok conflicts,
     {| committed := committed s;
        persistent := persistent s;
        pending := pending s ++ [new_task current_user task_data];
        tick := tick s |}).
Proof.
  intros Hno. unfold push_task, bind, db_execute at 1.
  by rewrite (task_of_miss _ _ _ Hno).
Qed.
End PushTask.

(** ** Flush and commit *)

Lemma insert_all_nil clk rows n : insert_all clk [] rows n = (Ok rows, n).
Proof. done. Qed.

Lemma db_commit_nothing_pending clk s :
  pending s = [] →
  db_commit clk s =
    (Ok (), {| committed := persistent s; persistent := persistent s;
               pending := []; tick := tick s |}).
Proof. intros Hp. unfold db_commit. by rewrite Hp. Qed.

(** The rows already in the table keep their place and their contents
    through a flush, whether it succeeds or not. *)
Lemma insert_all_prefix clk news rows n rows' n' :
  insert_all clk news rows n = (Ok rows', n') →
  ∃ added, rows' = rows ++ added ∧ length added = length news.
Proof.
  revert rows n. induction news as [|o news IH]; intros rows n H; simpl in H.
  - injection H as <- <-. exists []. by rewrite app_nil_r.
  - case_bool_decide; [done|].
    apply IH in H as (added & -> & Hlen).
    exists (Task.inserted (func_now_at clk n) o :: added).
    rewrite <- app_assoc. split; [done|]. simpl. by rewrite Hlen.
Qed.



(** ** Every iteration completes, and what it leaves alone *)

Lemma owned_key current_user task_data r :
  owned current_user task_data r ↔
  key r = (TaskSync.id task_data, User.id current_user).
Proof. unfold owned, key. split; [by intros [-> ->] | by intros [= -> ->]]. Qed.

Lemma owner_lookup current_user task_data (rows : list Task.t) :
  (∃ i cur, rows !! i = Some cur ∧ owned current_user task_data cur) ∨
  (∀ r, r ∈ rows → ¬ owned current_user task_data r).
Proof.
  destruct (decide (Exists (owned current_user task_data) rows)) as [Hex|Hno].
  - left. apply Exists_exists in Hex as (cur & Hin & Hown).
    apply list_elem_of_lookup_1 in Hin as [i Hi]. by exists i, cur.
  - right. intros r Hin Hown. apply Hno, Exists_exists. by exists r.
Qed.

Lemma key_assign task_data now r : key (Task.assign task_data now r) = key r.
Proof. done. Qed.

Lemma key_insert_assign (rows : list Task.t) i cur task_data now :
  rows !! i = Some cur →
  key <$> <[i := Task.assign task_data now cur]> rows = key <$> rows.
Proof.
  intros Hi. rewrite list_fmap_insert, key_assign.
  apply list_insert_id. by rewrite list_lookup_fmap, Hi.
Qed.

Lemma pk_unique_keys (rows rows' : list Task.t) :
  key <$> rows' = key <$> rows → pk_unique rows → pk_unique rows'.
Proof.
  unfold pk_unique. intros Hk.
  assert (Hid : ∀ l : list Task.t, Task.id <$> l = fst <$> (key <$> l)).
  { intros l. rewrite <- list_fmap_compose. done. }
  by rewrite !Hid, Hk.
Qed.

Section PushLoop.
Context (clk : Clock) (current_user : User.t).

(** The three ways an iteration can go. None of them raises. *)
Lemma push_task_cases task_data conflicts s :
  pk_unique (persistent s) →
  (∃ i cur,
      persistent s !! i = Some cur ∧ owned current_user task_data cur ∧
      Task.version cur ≤ TaskSync.version task_data ∧
      push_task clk current_user task_data conflicts s =
        (Ok conflicts,
         {| committed := committed s;
            persistent :=
              <[i := Task.assign task_data (utcnow_at clk (tick s)) cur]>
                (persistent s);
            pending := pending s;
            tick := S (tick s) |})) ∨
  (∃ i cur,
      persistent s !! i = Some cur ∧ owned current_user task_data cur ∧
      Task.version cur > TaskSync.version task_data ∧
      push_task clk current_user task_data conflicts s =
        (Ok (conflicts ++ [TaskSync.id task_data]), s)) ∨
  ((∀ r, r ∈ persistent s → ¬ owned current_user task_data r) ∧
   push_task clk current_user task_data conflicts s =
     (Ok conflicts,
      {| committed := committed s;
         persistent := persistent s;
         pending := pending s ++ [new_task current_user task_data];
         tick := tick s |})).
Proof.
  intros Hpk.
  destruct (owner_lookup current_user task_data (persistent s))
    as [(i & cur & Hi & Hown)|Hno].
  - destruct (decide (Task.version cur > TaskSync.version task_data)).
    + right; left. exists i, cur. split_and!; [done|done|done|].
      by apply (push_task_conflict _ _ _ _ _ i cur).
    + left. exists i, cur. split_and!; [done|done|lia|].
      apply (push_task_update _ _ _ _ _ i cur); [done|done|done|lia].
  - right; right. split; [done|]. by apply push_task_create.
Qed.

(** What an iteration preserves: the committed table, the key columns of
    the loaded rows, the objects already pending and the conflicts already
    listed; and it takes exactly one of its three branches. *)
Lemma push_task_inv task_data conflicts s :
  pk_unique (persistent s) →
  ∃ conflicts' s',
    push_task clk current_user task_data conflicts s = (Ok conflicts', s') ∧
    committed s' = committed s ∧
    key <$> persistent s' = key <$> persistent s ∧
    (∃ added, pending s' = pending s ++ added ∧
       ((TaskSync.id task_data, User.id current_user) ∉ key <$> persistent s →
        added = [new_task current_user task_data])) ∧
    (length conflicts' + tick s' + length (pending s') =
       S (length conflicts + tick s + length (pending s)))%nat.
Proof.
  intros Hpk.
  destruct (push_task_cases task_data conflicts s Hpk)
    as [(i & cur & Hi & Hown & Hv & ->)|[(i & cur & Hi & Hown & Hv & ->)|[Hno ->]]];
    do 2 eexists; (split; [reflexivity|]); simpl.
  - split_and!; [done|by apply key_insert_assign| |lia].
    exists []. rewrite app_nil_r. split; [done|]. intros Hk. exfalso.
    apply Hk, list_elem_of_fmap. exists cur. split.
    + symmetry. by apply owned_key.
    + by eapply list_elem_of_lookup_2.
  - split_and!; [done|done| |rewrite length_app; simpl; lia].
    exists []. rewrite app_nil_r. split; [done|]. intros Hk. exfalso.
    apply Hk, list_elem_of_fmap. exists cur. split.
    + symmetry. by apply owned_key.
    + by eapply list_elem_of_lookup_2.
  - split_and!; [done|done| |rewrite length_app; simpl; lia].
    by exists [new_task current_user task_data].
Qed.

(** The whole loop: every record of the batch goes through one branch. *)
Lemma for_each_push_inv batch : ∀ conflicts s,
  pk_unique (persistent s) →
  ∃ conflicts' s',
    for_each (push_task clk current_user) batch conflicts s
      = (Ok conflicts', s') ∧
    committed s' = committed s ∧
    key <$> persistent s' = key <$> persistent s ∧
    (∃ added, pending s' = pending s ++ added ∧
       ∀ task_data, task_data ∈ batch →
         (TaskSync.id task_data, User.id current_user)
           ∉ key <$> persistent s →
         new_task current_user task_data ∈ added) ∧
    (length conflicts' + tick s' + length (pending s') =
       length batch + (length conflicts + tick s + length (pending s)))%nat.
Proof.
  induction batch as [|td batch IH]; intros conflicts s Hpk.
  - exists conflicts, s. split_and!; try done.
    exists []. rewrite app_nil_r. split; [done|].
    by intros ? ?%elem_of_nil.
  - destruct (push_task_inv td conflicts s Hpk)
      as (c1 & s1 & Hstep & Hc1 & Hk1 & (a1 & Hp1 & Hnew1) & Hn1).
    destruct (IH c1 s1) as (c2 & s2 & Hrest & Hc2 & Hk2 & (a2 & Hp2 & Hnew2) & Hn2).
    { by apply (pk_unique_keys _ _ Hk1). }
    exists c2, s2. simpl. unfold bind at 1. rewrite Hstep.
    split_and!; [done|congruence|congruence| |lia].
    exists (a1 ++ a2). split.
    + by rewrite Hp2, Hp1, app_assoc.
    + intros td' [->|Hin]%elem_of_cons Hk.
      * apply elem_of_app. left. rewrite (Hnew1 Hk). apply list_elem_of_here.
      * apply elem_of_app. right. apply Hnew2; [done|]. by rewrite Hk1.
Qed.
End PushLoop.

(** ** A whole request *)

(** Once the loop is through, the request is decided by the flush. *)
Lemma push_endpoint_after_loop clk data current_user table t0 conflicts' s1 :
  for_each (push_task clk current_user) (tasks data) [] (open_session table t0)
    = (Ok conflicts', s1) →
  committed s1 = table →
  push_endpoint clk data current_user table t0 =
    match insert_all clk (pending s1) (persistent s1) (tick s1) with
    | (Ok rows, n) =>
        (Ok {| success := true; conflicts := conflicts';
               server_time := utcnow_at clk n |}, rows)
    | (Raise e, _) => (Raise e, table)
    end.
Proof.
  intros Hloop Hc. unfold push_endpoint, get_db, push_changes.
  unfold bind at 1. rewrite Hloop. unfold bind, db_commit.
  destruct (insert_all clk (pending s1) (persistent s1) (tick s1))
    as [[rows|e] n]; simpl; [done|]. by rewrite Hc.
Qed.

Section SingleRecord.
Context (clk : Clock) (current_user : User.t) (task_data : TaskSync.t).
Context (last : option datetime) (table : list Task.t) (t0 : nat).


Lemma push_endpoint_conflict i cur :
  pk_unique table → table !! i = Some cur →
  owned current_user task_data cur →
  Task.version cur > TaskSync.version task_data →
  push_endpoint clk {| tasks := [task_data]; last_sync_at := last |}
    current_user table t0 =
    (Ok {| success := true; conflicts := [TaskSync.id task_data];
           server_time := utcnow_at clk t0 |},
     table).
Proof.
  intros Hpk Hi Hown Hgt.
  unfold push_endpoint, get_db, push_changes; simpl. unfold bind at 1 2.
  by rewrite (push_task_conflict clk current_user task_data [] _ i cur).
Qed.

End SingleRecord.

(** ** Versions of loaded rows never go down *)

Section Versions.
Context (clk : Clock) (current_user : User.t).

Lemma push_task_versions task_data conflicts s conflicts' s' j r :
  pk_unique (persistent s) →
  push_task clk current_user task_data conflicts s = (Ok conflicts', s') →
  persistent s !! j = Some r →
  ∃ r', persistent s' !! j = Some r' ∧ Task.version r ≤ Task.version r'.
Proof.
  intros Hpk Hrun Hj.
  destruct (push_task_cases clk current_user task_data conflicts s Hpk)
    as [(i & cur & Hi & Hown & Hv & Heq)|[(i & cur & Hi & Hown & Hv & Heq)|[Hno Heq]]];
    rewrite Heq in Hrun; injection Hrun as <- <-; simpl.
  - destruct (decide (i = j)) as [->|Hne].
    + exists (Task.assign task_data (utcnow_at clk (tick s)) cur). split.
      * apply list_lookup_insert_eq. by eapply lookup_lt_Some.
      * simpl. assert (r = cur) by congruence. subst. lia.
    + exists r. split; [by rewrite list_lookup_insert_ne | lia].
  - exists r. split; [done | lia].
  - exists r. split; [done | lia].
Qed.

Lemma for_each_push_versions batch : ∀ conflicts s conflicts' s' j r,
  pk_unique (persistent s) →
  for_each (push_task clk current_user) batch conflicts s
    = (Ok conflicts', s') →
  persistent s !! j = Some r →
  ∃ r', persistent s' !! j = Some r' ∧ Task.version r ≤ Task.version r'.
Proof.
  induction batch as [|td batch IH]; intros conflicts s conflicts' s' j r Hpk Hrun Hj.
  - injection Hrun as <- <-. exists r. split; [done | lia].
  - simpl in Hrun. unfold bind at 1 in Hrun.
    destruct (push_task_inv clk current_user td conflicts s Hpk)
      as (c1 & s1 & Hstep & _ & Hk1 & _).
    rewrite Hstep in Hrun.
    destruct (push_task_versions td conflicts s c1 s1 j r Hpk Hstep Hj)
      as (r1 & Hj1 & Hle1).
    destruct (IH c1 s1 conflicts' s' j r1) as (r2 & Hj2 & Hle2); [|done|done|].
    { by apply (pk_unique_keys _ _ Hk1). }
    exists r2. split; [done | lia].
Qed.
End Versions.

Lemma push_endpoint_versions clk data current_user table t0 j r :
  pk_unique table → table !! j = Some r →
  ∃ r', snd (push_endpoint clk data current_user table t0) !! j = Some r' ∧
        Task.version r ≤ Task.version r'.
Proof.
  intros Hpk Hj.
  destruct (for_each_push_inv clk current_user (tasks data) []
              (open_session table t0) Hpk)
    as (c1 & s1 & Hloop & Hc & _).
  rewrite (push_endpoint_after_loop _ _ _ _ _ c1 s1 Hloop Hc).
  destruct (for_each_push_versions clk current_user (tasks data) []
              (open_session table t0) c1 s1 j r Hpk Hloop Hj)
    as (r1 & Hj1 & Hle).
  destruct (insert_all clk (pending s1) (persistent s1) (tick s1))
    as [[rows|e] n] eqn:Hins; simpl.
  - apply insert_all_prefix in Hins as (added & -> & _).
    exists r1. split; [|done]. rewrite lookup_app_l; [done|].
    by eapply lookup_lt_Some.
  - exists r. split; [done | lia].
Qed.

(** The primary key survives every request: the constraint assumed of the
    table before a push holds of the table after it. *)
Lemma insert_all_pk_unique clk news rows n rows' n' :
  pk_unique rows → insert_all clk news rows n = (Ok rows', n') →
  pk_unique rows'.
Proof.
  revert rows n. induction news as [|o news IH]; intros rows n Hpk H; simpl in H.
  - by injection H as <- <-.
  - case_bool_decide as Hin; [done|]. apply IH in H; [done|].
    unfold pk_unique. rewrite fmap_app. apply NoDup_app. split_and!.
    + done.
    + intros x Hx ->%list_elem_of_singleton. done.
    + apply NoDup_singleton.
Qed.

Lemma push_endpoint_pk_unique clk data current_user table t0 :
  pk_unique table →
  pk_unique (snd (push_endpoint clk data current_user table t0)).
Proof.
  intros Hpk.
  destruct (for_each_push_inv clk current_user (tasks data) []
              (open_session table t0) Hpk)
    as (c1 & s1 & Hloop & Hc & Hk & _).
  rewrite (push_endpoint_after_loop _ _ _ _ _ c1 s1 Hloop Hc).
  destruct (insert_all clk (pending s1) (persistent s1) (tick s1))
    as [[rows|e] n] eqn:Hins; simpl; [|done].
  eapply insert_all_pk_unique; [|done]. by apply (pk_unique_keys _ _ Hk).
Qed.

(** The same new id twice in one batch: neither SELECT sees the pending
    object, both records are added, and the second INSERT is refused. *)
Example push_same_new_id_twice :
  push_endpoint clock0 (req [rec 7 1; rec 7 1]) alice [] 0
  = (Raise IntegrityError, []).
Proof. reflexivity. Qed.

(** An update made earlier in the batch is seen by the later iterations: the
    first record is applied, its two repetitions conflict with the result. *)
Example push_same_held_id_thrice :
  push_endpoint clock0 (req [rec 7 1; rec 7 1; rec 7 1]) alice [row 7 1 1 5] 0
  = (Ok {| success := true; conflicts := [7%N; 7%N]; server_time := 1001 |},
     [Task.assign (rec 7 1) 1000 (row 7 1 1 5)]).
Proof. reflexivity. Qed.

(** * The claims *)

(** ** Push: the three outcomes for one record *)



(** C2. A pushed record whose id the caller already holds at a stored version
    strictly above the incoming one is a conflict: its id is appended to the
    conflict list and nothing of the session changes, no field, version or
    [modified_at]; sent as a request of its own, the response lists the id and
    the table is the one it was. *)
Theorem push_existing_older_conflicts clk current_user task_data rows i cur :
  pk_unique rows → rows !! i = Some cur →
  owned current_user task_data cur →
  Task.version cur > TaskSync.version task_data →
  (∀ conflicts s, persistent s = rows →
     push_task clk current_user task_data conflicts s =
       (Ok (conflicts ++ [TaskSync.id task_data]), s)) ∧
  (∀ last t0,
     push_endpoint clk {| tasks := [task_data]; last_sync_at := last |}
       current_user rows t0 =
       (Ok {| success := true; conflicts := [TaskSync.id task_data];
              server_time := utcnow_at clk t0 |},
        rows)).
Proof.
  intros Hpk Hi Hown Hgt. split.
  - intros conflicts s Hs. subst rows.
    by apply (push_task_conflict _ _ _ _ _ i cur).
  - intros last t0. by apply (push_endpoint_conflict _ _ _ _ _ _ i cur).
Qed.

Lemma push_existing_older_conflicts_witness :
  (∀ conflicts s, persistent s = [row 7 1 3 5] →
     push_task clock0 alice (rec 7 1) conflicts s =
       (Ok (conflicts ++ [7%N]), s)) ∧
  (∀ last t0,
     push_endpoint clock0 {| tasks := [rec 7 1]; last_sync_at := last |}
       alice [row 7 1 3 5] t0 =
       (Ok {| success := true; conflicts := [7%N];
              server_time := utcnow_at clock0 t0 |},
        [row 7 1 3 5])).
Proof.
  apply (push_existing_older_conflicts clock0 alice (rec 7 1)
           [row 7 1 3 5] 0 (row 7 1 3 5)).
  - apply NoDup_singleton.
  - reflexivity.
  - split; reflexivity.
  - simpl. lia.
Defined.



(** ** Push: how far an accepted update moves the version *)

(** C4, as the spec words it, fails: an accepted update of a row stored at
    version 1 by a record sent at version 5 leaves it at version 6, which is
    not the stored version plus one. *)
Lemma accepted_update_not_plus_one :
  let before := row 7 1 1 5 in
  let after := Task.assign (rec 7 5) 1000 before in
  push_endpoint clock0 (req [rec 7 5]) alice [before] 0 =
    (Ok {| success := true; conflicts := []; server_time := 1001 |}, [after]) ∧
  Task.version before = 1 ∧ Task.version after = 6 ∧
  Task.version after ≠ Task.version before + 1.
Proof. split_and!; [reflexivity | reflexivity | reflexivity | simpl; lia]. Qed.

(** C4, amended. An accepted update of an existing row stores the incoming
    version plus one. Against the version stored before, that is a step of
    [incoming - stored + 1]: at least one, and exactly one precisely when the
    client sent the very version the server held. *)
Theorem accepted_update_version_step clk current_user task_data rows i cur :
  pk_unique rows → rows !! i = Some cur →
  owned current_user task_data cur →
  Task.version cur ≤ TaskSync.version task_data →
  ∀ conflicts s, persistent s = rows →
    ∃ s' stored,
      push_task clk current_user task_data conflicts s = (Ok conflicts, s') ∧
      persistent s' !! i = Some stored ∧
      Task.version stored - Task.version cur
        = TaskSync.version task_data - Task.version cur + 1 ∧
      1 ≤ Task.version stored - Task.version cur ∧
      (Task.version stored = Task.version cur + 1 ↔
       TaskSync.version task_data = Task.version cur).
Proof.
  intros Hpk Hi Hown Hle conflicts s Hs. subst rows. do 2 eexists.
  split; [by apply (push_task_update _ _ _ _ _ i cur)|]. simpl.
  split; [apply list_lookup_insert_eq; by eapply lookup_lt_Some|].
  simpl. lia.
Qed.

Lemma accepted_update_version_step_witness :
  ∃ s' stored,
    push_task clock0 alice (rec 7 5) [] (open_session [row 7 1 1 5] 0)
      = (Ok [], s') ∧
    persistent s' !! 0%nat = Some stored ∧
    Task.version stored - Task.version (row 7 1 1 5)
      = TaskSync.version (rec 7 5) - Task.version (row 7 1 1 5) + 1 ∧
    1 ≤ Task.version stored - Task.version (row 7 1 1 5) ∧
    (Task.version stored = Task.version (row 7 1 1 5) + 1 ↔
     TaskSync.version (rec 7 5) = Task.version (row 7 1 1 5)).
Proof.
  apply (accepted_update_version_step clock0 alice (rec 7 5)
           [row 7 1 1 5] 0 (row 7 1 1 5)).
  - apply NoDup_singleton.
  - reflexivity.
  - split; reflexivity.
  - simpl. lia.
  - reflexivity.
Defined.

(** C10. An accepted update of an existing row strictly raises its version:
    the update is taken only when the stored version is not above the incoming
    one and stores the incoming one plus one, hence at least the stored
    version plus one. Across a whole push request, whatever the batch and
    whether it commits or not, no row of the table ends at a lower version
    than it had. *)
Theorem accepted_update_version_increases clk current_user task_data rows i cur :
  pk_unique rows → rows !! i = Some cur →
  owned current_user task_data cur →
  Task.version cur ≤ TaskSync.version task_data →
  (∀ conflicts s, persistent s = rows →
     ∃ s' stored,
       push_task clk current_user task_data conflicts s = (Ok conflicts, s') ∧
       persistent s' !! i = Some stored ∧
       Task.version cur + 1 ≤ Task.version stored ∧
       Task.version stored > Task.version cur) ∧
  (∀ data t0 j r, rows !! j = Some r →
     ∃ r', snd (push_endpoint clk data current_user rows t0) !! j = Some r' ∧
           Task.version r ≤ Task.version r').
Proof.
  intros Hpk Hi Hown Hle. split.
  - intros conflicts s Hs. subst rows. do 2 eexists.
    split; [by apply (push_task_update _ _ _ _ _ i cur)|]. simpl.
    split; [apply list_lookup_insert_eq; by eapply lookup_lt_Some|].
    simpl. lia.
  - intros data t0 j r Hj. by apply push_endpoint_versions.
Qed.

Lemma accepted_update_version_increases_witness :
  (∀ conflicts s, persistent s = [row 7 1 1 5] →
     ∃ s' stored,
       push_task clock0 alice (rec 7 1) conflicts s = (Ok conflicts, s') ∧
       persistent s' !! 0%nat = Some stored ∧
       Task.version (row 7 1 1 5) + 1 ≤ Task.version stored ∧
       Task.version stored > Task.version (row 7 1 1 5)) ∧
  (∀ data t0 j r, [row 7 1 1 5] !! j = Some r →
     ∃ r', snd (push_endpoint clock0 data alice [row 7 1 1 5] t0) !! j = Some r' ∧
           Task.version r ≤ Task.version r').
Proof.
  apply (accepted_update_version_increases clock0 alice (rec 7 1)
           [row 7 1 1 5] 0 (row 7 1 1 5)).
  - apply NoDup_singleton.
  - reflexivity.
  - split; reflexivity.
  - simpl. lia.
Defined.

(** ** Push: an id held by another owner *)





(** ** Push: the batch as a whole *)

Section Batch.
Context (clk : Clock) (current_user : User.t).


(** The same record over and over, each time a conflict. *)
Lemma for_each_push_replicate task_data n : ∀ conflicts s i cur,
  pk_unique (persistent s) → persistent s !! i = Some cur →
  owned current_user task_data cur →
  Task.version cur > TaskSync.version task_data →
  for_each (push_task clk current_user) (replicate n task_data) conflicts s
    = (Ok (conflicts ++ replicate n (TaskSync.id task_data)), s).
Proof.
  induction n as [|n IH]; intros conflicts s i cur Hpk Hi Hown Hgt; simpl.
  - by rewrite app_nil_r.
  - unfold bind at 1.
    rewrite (push_task_conflict clk current_user task_data _ _ i cur)
      by done.
    rewrite (IH _ s i cur) by done. by rewrite <- app_assoc.
Qed.
End Batch.



(** An evaluation of that batch: one conflict, one update, one create. *)
Example push_mixed_batch :
  push_endpoint clock0 (req [rec 7 1; rec 8 9; rec 9 1]) alice
    [row 7 1 3 5; row 8 1 2 6] 0
  = (Ok {| success := true; conflicts := [7%N]; server_time := 1002 |},
     [row 7 1 3 5;
      Task.assign (rec 8 9) 1000 (row 8 1 2 6);
      Task.inserted 2001 (new_task alice (rec 9 1))]).
Proof. reflexivity. Qed.

(** ** Push: a conflict repeats *)

(** C9. A record refused as a conflict is refused again, with the same
    answer and the table left as it was, however often the same request is
    sent again while nobody else changes the row; the same holds for the
    record repeated any number of times inside one batch. *)
Theorem repeated_conflict_stable clk current_user task_data last table i cur :
  pk_unique table → table !! i = Some cur →
  owned current_user task_data cur →
  Task.version cur > TaskSync.version task_data →
  (∀ starts,
     resend clk {| tasks := [task_data]; last_sync_at := last |}
       current_user starts table
     = ((λ t0, Ok {| success := true; conflicts := [TaskSync.id task_data];
                     server_time := utcnow_at clk t0 |}) <$> starts,
        table)) ∧
  (∀ n t0,
     push_endpoint clk {| tasks := replicate n task_data; last_sync_at := last |}
       current_user table t0
     = (Ok {| success := true;
              conflicts := replicate n (TaskSync.id task_data);
              server_time := utcnow_at clk t0 |},
        table)).
Proof.
  intros Hpk Hi Hown Hgt. split.
  - induction starts as [|t0 starts IH]; simpl; [done|].
    rewrite (push_endpoint_conflict clk current_user task_data last table t0 i cur)
      by done.
    by rewrite IH.
  - intros n t0.
    pose proof (for_each_push_replicate clk current_user task_data n []
                  (open_session table t0) i cur Hpk Hi Hown Hgt) as Hloop.
    by rewrite (push_endpoint_after_loop clk
                  {| tasks := replicate n task_data; last_sync_at := last |}
                  current_user table t0 _ _ Hloop eq_refl).
Qed.

Lemma repeated_conflict_stable_witness :
  (∀ starts,
     resend clock0 {| tasks := [rec 7 1]; last_sync_at := None |}
       alice starts [row 7 1 3 5]
     = ((λ t0, Ok {| success := true; conflicts := [TaskSync.id (rec 7 1)];
                     server_time := utcnow_at clock0 t0 |}) <$> starts,
        [row 7 1 3 5])) ∧
  (∀ n t0,
     push_endpoint clock0 {| tasks := replicate n (rec 7 1);
                             last_sync_at := None |}
       alice [row 7 1 3 5] t0
     = (Ok {| success := true;
              conflicts := replicate n (TaskSync.id (rec 7 1));
              server_time := utcnow_at clock0 t0 |},
        [row 7 1 3 5])).
Proof.
  apply (repeated_conflict_stable clock0 alice (rec 7 1) None
           [row 7 1 3 5] 0 (row 7 1 3 5)).
  - apply NoDup_singleton.
  - reflexivity.
  - split; reflexivity.
  - simpl. lia.
Defined.

(** ** Pull *)

Global Instance modified_desc_total : Total modified_desc.
Proof. intros a b. unfold modified_desc. lia. Qed.

Global Instance modified_desc_trans : Transitive modified_desc.
Proof. intros a b c. unfold modified_desc. lia. Qed.

Lemma pull_query_where since current_user r :
  whereclause (pull_query since current_user) r = true ↔
  pulled since current_user r.
Proof.
  unfold pulled. destruct since as [cursor|]; simpl.
  - rewrite andb_true_iff, !bool_decide_eq_true. done.
  - rewrite bool_decide_eq_true. tauto.
Qed.

(** What the handler fetches, before it is turned into the response. *)
Lemma pull_endpoint_eq clk since current_user table t0 :
  pull_endpoint clk since current_user table t0 =
    (Ok {| pull_tasks :=
             Task.to_sync <$>
               scalars_all (run_query (pull_query since current_user) table);
           pull_server_time := utcnow_at clk t0 |},
     table).
Proof. done. Qed.

Lemma pull_fetched_perm since current_user table :
  scalars_all (run_query (pull_query since current_user) table)
    ≡ₚ filter (pulled since current_user) table.
Proof.
  unfold scalars_all, run_query. simpl.
  rewrite merge_sort_Permutation, scan_snd.
  erewrite list_filter_iff; [done|].
  intros r. apply (pull_query_where since current_user r).
Qed.

Lemma pull_fetched_sorted since current_user table :
  StronglySorted newer_first
    (scalars_all (run_query (pull_query since current_user) table)).
Proof.
  unfold scalars_all, run_query. simpl.
  apply (StronglySorted_fmap snd modified_desc newer_first); [done|].
  apply StronglySorted_merge_sort; apply _.
Qed.

(** C7. A pull returns exactly the caller's rows, each as often as the table
    holds it; with a cursor only those modified strictly after it, a row
    modified exactly at the cursor being left out; without a cursor all of
    them. Tombstones are returned like any other row, flagged as deleted. The
    table is not changed. *)
Theorem pull_returns_exactly clk since current_user table t0 :
  ∃ fetched,
    pull_endpoint clk since current_user table t0 =
      (Ok {| pull_tasks := Task.to_sync <$> fetched;
             pull_server_time := utcnow_at clk t0 |}, table) ∧
    fetched ≡ₚ filter (pulled since current_user) table ∧
    (∀ r, r ∈ fetched ↔
          r ∈ table ∧ Task.user_id r = User.id current_user ∧
          match since with
          | Some cursor => Task.modified_at r > cursor
          | None => True
          end) ∧
    (∀ r, r ∈ fetched → since ≠ Some (Task.modified_at r)) ∧
    (∀ r, r ∈ table → pulled since current_user r →
          Task.is_deleted r = true →
          r ∈ fetched ∧ TaskSync.is_deleted (Task.to_sync r) = true).
Proof.
  exists (scalars_all (run_query (pull_query since current_user) table)).
  pose proof (pull_fetched_perm since current_user table) as Hperm.
  assert (Hin : ∀ r,
    r ∈ scalars_all (run_query (pull_query since current_user) table) ↔
    r ∈ table ∧ pulled since current_user r).
  { intros r. rewrite Hperm, list_elem_of_filter. tauto. }
  split_and!.
  - apply pull_endpoint_eq.
  - done.
  - intros r. rewrite Hin. unfold pulled. tauto.
  - intros r [_ [_ Hr]]%Hin ->. lia.
  - intros r Hr Hp Hdel. split; [by apply Hin | done].
Qed.

Lemma pull_returns_exactly_witness :
  ∃ fetched,
    pull_endpoint clock0 (Some 5) alice
      [row 7 1 1 5; row 8 1 1 9; row 9 2 1 9; row 10 1 1 6] 0 =
      (Ok {| pull_tasks := Task.to_sync <$> fetched;
             pull_server_time := utcnow_at clock0 0 |},
       [row 7 1 1 5; row 8 1 1 9; row 9 2 1 9; row 10 1 1 6]) ∧
    fetched ≡ₚ filter (pulled (Some 5) alice)
                 [row 7 1 1 5; row 8 1 1 9; row 9 2 1 9; row 10 1 1 6] ∧
    (∀ r, r ∈ fetched ↔
          r ∈ [row 7 1 1 5; row 8 1 1 9; row 9 2 1 9; row 10 1 1 6] ∧
          Task.user_id r = User.id alice ∧ Task.modified_at r > 5) ∧
    (∀ r, r ∈ fetched → Some 5 ≠ Some (Task.modified_at r)) ∧
    (∀ r, r ∈ [row 7 1 1 5; row 8 1 1 9; row 9 2 1 9; row 10 1 1 6] →
          pulled (Some 5) alice r → Task.is_deleted r = true →
          r ∈ fetched ∧ TaskSync.is_deleted (Task.to_sync r) = true).
Proof.
  exact (pull_returns_exactly clock0 (Some 5) alice
           [row 7 1 1 5; row 8 1 1 9; row 9 2 1 9; row 10 1 1 6] 0).
Defined.



(** An evaluation: the cursor drops the row modified at 5, the other owner's
    row is not returned, the newest row comes first. *)
Example pull_after_cursor :
  pull_endpoint clock0 (Some 5) alice
    [row 7 1 1 5; row 10 1 1 6; row 9 2 1 9; row 8 1 1 9] 0
  = (Ok {| pull_tasks := Task.to_sync <$> [row 8 1 1 9; row 10 1 1 6];
           pull_server_time := 1000 |},
     [row 7 1 1 5; row 10 1 1 6; row 9 2 1 9; row 8 1 1 9]).
Proof. reflexivity. Qed.

(** * Further properties of the sync endpoints *)

(** ** Status *)


Lemma pull_fetched_elem since current_user table r :
  r ∈ scalars_all (run_query (pull_query since current_user) table) ↔
  r ∈ table ∧ pulled since current_user r.
Proof. rewrite pull_fetched_perm, list_elem_of_filter. tauto. Qed.

(** The first query of the handler, counted. *)
Lemma live_tasks_fetched current_user table :
  scalars_all (run_query (live_tasks_of current_user) table)
    = filter (live current_user) table.
Proof.
  unfold scalars_all, run_query. simpl. rewrite scan_snd.
  apply list_filter_iff. intros r. unfold live.
  rewrite andb_true_iff, !bool_decide_eq_true. done.
Qed.

(** The second query is the one a pull without cursor runs. *)
Lemma latest_tasks_is_pull current_user table :
  run_query (latest_tasks_of current_user) table
    = run_query (pull_query None current_user) table.
Proof. done. Qed.

Lemma status_endpoint_eq clk current_user table t0 :
  status_endpoint clk current_user table t0 =
    (Ok {| status_user_id := User.id current_user;
           total_tasks := length (filter (live current_user) table);
           last_modified_at :=
             Task.modified_at <$>
               head (scalars_all (run_query (pull_query None current_user) table));
           status_server_time := utcnow_at clk t0 |},
     table).
Proof.
  unfold status_endpoint, get_db, sync_status.
  unfold bind at 1, db_execute at 1. rewrite live_tasks_fetched.
  unfold bind at 1, db_execute at 1. rewrite latest_tasks_is_pull.
  unfold scalars_all.
  change (persistent (open_session table t0)) with table.
  destruct (run_query (pull_query None current_user) table) as [|[ref task] rest];
    [done|].
  by destruct rest.
Qed.

(** X1. The status endpoint answers for every table, also when the caller
    owns many rows (the [limit(1)] keeps [scalar_one_or_none] from raising),
    and it leaves the table untouched. [total_tasks] is the number of the
    caller's rows that are not tombstones: deleted rows and other owners' rows
    are not counted. *)
Theorem status_counts_live_rows clk current_user table t0 :
  ∃ resp,
    status_endpoint clk current_user table t0 = (Ok resp, table) ∧
    status_user_id resp = User.id current_user ∧
    status_server_time resp = utcnow_at clk t0 ∧
    total_tasks resp = length (filter (live current_user) table) ∧
    (total_tasks resp ≤ length table)%nat ∧
    (total_tasks resp = 0%nat ↔
     ∀ r, r ∈ table → Task.user_id r = User.id current_user →
          Task.is_deleted r = true).
Proof.
  eexists. split; [apply status_endpoint_eq|]. simpl.
  split_and!; try done.
  - apply length_filter.
  - rewrite length_zero_iff_nil. split.
    + intros Hnil r Hr Hu. destruct (Task.is_deleted r) eqn:Hd; [done|].
      assert (r ∈ filter (live current_user) table) as Hin
        by (apply list_elem_of_filter; by repeat split).
      rewrite Hnil in Hin. by apply elem_of_nil in Hin.
    + intros Hall. apply elem_of_nil_inv. intros r [[Hu Hd] Hr]%list_elem_of_filter.
      specialize (Hall r Hr Hu). congruence.
Qed.

(** X2. [last_modified_at] is absent exactly when the caller owns no row at
    all, and otherwise it is the greatest [modified_at] among all the
    caller's rows, tombstones included: a caller whose tasks are all deleted
    gets [total_tasks = 0] together with a [last_modified_at]. *)
Theorem status_last_modified_is_max clk current_user table t0 :
  ∃ resp,
    status_endpoint clk current_user table t0 = (Ok resp, table) ∧
    (last_modified_at resp = None ↔
     ∀ r, r ∈ table → Task.user_id r ≠ User.id current_user) ∧
    (∀ m, last_modified_at resp = Some m ↔
          (∃ r, r ∈ table ∧ Task.user_id r = User.id current_user ∧
                Task.modified_at r = m) ∧
          (∀ r, r ∈ table → Task.user_id r = User.id current_user →
                Task.modified_at r ≤ m)).
Proof.
  eexists. split; [apply status_endpoint_eq|]. simpl.
  pose proof (pull_fetched_sorted None current_user table) as Hsorted.
  pose proof (pull_fetched_elem None current_user table) as Hin.
  destruct (scalars_all (run_query (pull_query None current_user) table))
    as [|top rest]; simpl.
  - assert (Hnone : ∀ r, r ∈ table → Task.user_id r ≠ User.id current_user).
    { intros r Hr Hu.
      assert (r ∈ @nil Task.t) as Hbad by (apply Hin; by repeat split).
      by apply elem_of_nil in Hbad. }
    split; [done|]. intros m. split; [done|].
    intros [(r & Hr & Hu & _) _]. by destruct (Hnone r Hr).
  - assert (Htop : top ∈ table ∧ Task.user_id top = User.id current_user).
    { destruct (proj1 (Hin top)) as [? [? _]]; [apply list_elem_of_here|done]. }
    assert (Hmax : ∀ r, r ∈ table → Task.user_id r = User.id current_user →
                        Task.modified_at r ≤ Task.modified_at top).
    { intros r Hr Hu.
      assert (r ∈ top :: rest) as Hrin by (apply Hin; by repeat split).
      apply StronglySorted_inv in Hsorted as [_ Hall].
      apply elem_of_cons in Hrin as [->|Hrin]; [lia|].
      rewrite Forall_forall in Hall. by apply Hall. }
    split.
    + split; [done|]. intros Hno. destruct Htop as [Ht Hu]. by destruct (Hno top Ht).
    + intros m. split.
      * intros [= <-]. split; [|done]. exists top. by destruct Htop.
      * intros [(r & Hr & Hu & Hm) Hle]. f_equal.
        destruct Htop as [Ht Htu].
        specialize (Hmax r Hr Hu). specialize (Hle top Ht Htu). lia.
Qed.


(** An evaluation: one live row, one tombstone modified later, one row of
    another owner. *)
Example status_with_tombstone :
  status_endpoint clock0 alice [row 7 1 1 5; tomb 8 1 4 9; row 9 2 1 12] 0
  = (Ok {| status_user_id := 1%N; total_tasks := 1;
           last_modified_at := Some 9; status_server_time := 1000 |},
     [row 7 1 1 5; tomb 8 1 4 9; row 9 2 1 12]).
Proof. reflexivity. Qed.

(** ** Push: what a request leaves alone *)

Section Frame.
Context (clk : Clock) (current_user : User.t).

Lemma push_task_frame task_data conflicts s conflicts' s' j r :
  pk_unique (persistent s) →
  push_task clk current_user task_data conflicts s = (Ok conflicts', s') →
  persistent s !! j = Some r →
  ∃ r', persistent s' !! j = Some r' ∧
        fixed_columns r' = fixed_columns r ∧
        (¬ owned current_user task_data r → r' = r).
Proof.
  intros Hpk Hrun Hj.
  destruct (push_task_cases clk current_user task_data conflicts s Hpk)
    as [(i & cur & Hi & Hown & Hv & Heq)|[(i & cur & Hi & Hown & Hv & Heq)|[Hno Heq]]];
    rewrite Heq in Hrun; injection Hrun as <- <-; simpl;
    [|by exists r..].
  destruct (decide (i = j)) as [->|Hne].
  - assert (r = cur) by congruence. subst r.
    exists (Task.assign task_data (utcnow_at clk (tick s)) cur). split_and!.
    + apply list_lookup_insert_eq. by eapply lookup_lt_Some.
    + done.
    + intros Hnot. by destruct Hnot.
  - exists r. by rewrite list_lookup_insert_ne.
Qed.

Lemma for_each_push_frame batch : ∀ conflicts s conflicts' s' j r,
  pk_unique (persistent s) →
  for_each (push_task clk current_user) batch conflicts s
    = (Ok conflicts', s') →
  persistent s !! j = Some r →
  ∃ r', persistent s' !! j = Some r' ∧
        fixed_columns r' = fixed_columns r ∧
        (Task.user_id r ≠ User.id current_user ∨
         Task.id r ∉ TaskSync.id <$> batch → r' = r).
Proof.
  induction batch as [|td batch IH]; intros conflicts s conflicts' s' j r Hpk Hrun Hj.
  - injection Hrun as <- <-. by exists r.
  - simpl in Hrun. unfold bind at 1 in Hrun.
    destruct (push_task_inv clk current_user td conflicts s Hpk)
      as (c1 & s1 & Hstep & _ & Hk1 & _).
    rewrite Hstep in Hrun.
    destruct (push_task_frame td conflicts s c1 s1 j r Hpk Hstep Hj)
      as (r1 & Hj1 & Hfix1 & Hsame1).
    destruct (IH c1 s1 conflicts' s' j r1) as (r2 & Hj2 & Hfix2 & Hsame2);
      [by apply (pk_unique_keys _ _ Hk1)|done|done|].
    exists r2. split_and!; [done|congruence|].
    intros Hout.
    assert (r1 = r) as ->.
    { apply Hsame1. intros [Hid Hu]. destruct Hout as [Hout|Hout]; [done|].
      apply Hout. rewrite Hid. csimpl. apply list_elem_of_here. }
    apply Hsame2. destruct Hout as [Hout|Hout]; [by left|right].
    intros Hin. apply Hout. csimpl. by apply list_elem_of_further.
Qed.
End Frame.

Lemma push_endpoint_frame clk data current_user table t0 j r :
  pk_unique table → table !! j = Some r →
  ∃ r', snd (push_endpoint clk data current_user table t0) !! j = Some r' ∧
        fixed_columns r' = fixed_columns r ∧
        (Task.user_id r ≠ User.id current_user ∨
         Task.id r ∉ TaskSync.id <$> tasks data → r' = r).
Proof.
  intros Hpk Hj.
  destruct (for_each_push_inv clk current_user (tasks data) []
              (open_session table t0) Hpk)
    as (c1 & s1 & Hloop & Hc & _).
  rewrite (push_endpoint_after_loop _ _ _ _ _ c1 s1 Hloop Hc).
  destruct (for_each_push_frame clk current_user (tasks data) []
              (open_session table t0) c1 s1 j r Hpk Hloop Hj)
    as (r1 & Hj1 & Hfix & Hsame).
  destruct (insert_all clk (pending s1) (persistent s1) (tick s1))
    as [[rows|e] n] eqn:Hins; simpl.
  - apply insert_all_prefix in Hins as (added & -> & _).
    exists r1. split; [|done]. rewrite lookup_app_l; [done|].
    by eapply lookup_lt_Some.
  - by exists r.
Qed.

(** X4. A push changes no row but the caller's own rows whose id occurs in
    the batch: every row of another owner, and every row of the caller the
    batch does not name, is in the table afterwards at the same place with
    every column as it was, whether the request is answered or fails. *)
Theorem push_changes_only_named_own_rows clk data current_user table t0 j r :
  pk_unique table → table !! j = Some r →
  Task.user_id r ≠ User.id current_user ∨
  Task.id r ∉ TaskSync.id <$> tasks data →
  snd (push_endpoint clk data current_user table t0) !! j = Some r.
Proof.
  intros Hpk Hj Hout.
  destruct (push_endpoint_frame clk data current_user table t0 j r Hpk Hj)
    as (r' & Hj' & _ & Hsame).
  by rewrite Hj', (Hsame Hout).
Qed.

Lemma push_changes_only_named_own_rows_witness :
  snd (push_endpoint clock0 (req [rec 7 9; rec 8 9; rec 10 1]) alice
         [row 7 2 1 5; row 8 1 1 5; row 9 1 1 5] 0) !! 0%nat
  = Some (row 7 2 1 5).
Proof.
  apply (push_changes_only_named_own_rows clock0 (req [rec 7 9; rec 8 9; rec 10 1])
           alice [row 7 2 1 5; row 8 1 1 5; row 9 1 1 5] 0 0 (row 7 2 1 5)).
  - apply (bool_decide_unpack _). vm_compute. exact I.
  - reflexivity.
  - left. discriminate.
Defined.

(** X5. A push never deletes a row and never assigns [id], [user_id],
    [project_id] or [created_at]: every row of the table is still there
    afterwards, at the same place, with these four columns unchanged; and the
    table still has no two rows with the same primary key. *)
Theorem push_keeps_rows_and_fixed_columns clk data current_user table t0 :
  pk_unique table →
  pk_unique (snd (push_endpoint clk data current_user table t0)) ∧
  (length table ≤ length (snd (push_endpoint clk data current_user table t0)))%nat ∧
  (∀ j r, table !! j = Some r →
     ∃ r', snd (push_endpoint clk data current_user table t0) !! j = Some r' ∧
           Task.id r' = Task.id r ∧ Task.user_id r' = Task.user_id r ∧
           Task.project_id r' = Task.project_id r ∧
           Task.created_at r' = Task.created_at r).
Proof.
  intros Hpk.
  assert (Hrows : ∀ j r, table !! j = Some r →
     ∃ r', snd (push_endpoint clk data current_user table t0) !! j = Some r' ∧
           fixed_columns r' = fixed_columns r).
  { intros j r Hj.
    destruct (push_endpoint_frame clk data current_user table t0 j r Hpk Hj)
      as (r' & Hj' & Hfix & _). by exists r'. }
  split_and!.
  - by apply push_endpoint_pk_unique.
  - destruct (decide (length table ≤
        length (snd (push_endpoint clk data current_user table t0)))%nat)
      as [|Hlt]; [done|].
    destruct (lookup_lt_is_Some_2 table
                (length (snd (push_endpoint clk data current_user table t0))))
      as [r Hr]; [lia|].
    destruct (Hrows _ r Hr) as (r' & Hr' & _).
    apply lookup_lt_Some in Hr'. lia.
  - intros j r Hj. destruct (Hrows j r Hj) as (r' & Hj' & Hfix).
    exists r'. unfold fixed_columns in Hfix. injection Hfix as ? ? ? ?. done.
Qed.

Lemma push_keeps_rows_and_fixed_columns_witness :
  let table := [row 7 2 1 5; row 8 1 1 5] in
  let table' := snd (push_endpoint clock0 (req [rec 8 9; rec 10 1]) alice table 0) in
  pk_unique table' ∧
  (length table ≤ length table')%nat ∧
  (∀ j r, table !! j = Some r →
     ∃ r', table' !! j = Some r' ∧
           Task.id r' = Task.id r ∧ Task.user_id r' = Task.user_id r ∧
           Task.project_id r' = Task.project_id r ∧
           Task.created_at r' = Task.created_at r).
Proof.
  apply (push_keeps_rows_and_fixed_columns clock0 (req [rec 8 9; rec 10 1])
           alice [row 7 2 1 5; row 8 1 1 5] 0).
  apply (bool_decide_unpack _). vm_compute. exact I.
Defined.

(** ** Push: when a request is answered *)

Lemma new_records_keys current_user (rows rows' : list Task.t) batch :
  key <$> rows' = key <$> rows →
  new_records current_user rows' batch = new_records current_user rows batch.
Proof. intros Hk. unfold new_records. by rewrite Hk. Qed.

Lemma not_owned_iff_key current_user task_data (rows : list Task.t) :
  (∀ r, r ∈ rows → ¬ owned current_user task_data r) ↔
  (TaskSync.id task_data, User.id current_user) ∉ key <$> rows.
Proof.
  split.
  - intros Hno (r & Hk & Hr)%list_elem_of_fmap.
    apply (Hno r Hr). by apply owned_key.
  - intros Hk r Hr Hown. apply Hk, list_elem_of_fmap. exists r.
    split; [|done]. symmetry. by apply owned_key.
Qed.

(** The objects pending after the loop are the new records of the batch, one
    each, in batch order. *)
Lemma for_each_push_pending clk current_user batch : ∀ conflicts s conflicts' s',
  pk_unique (persistent s) →
  for_each (push_task clk current_user) batch conflicts s
    = (Ok conflicts', s') →
  pending s' =
    pending s ++
    (new_task current_user <$> new_records current_user (persistent s) batch).
Proof.
  induction batch as [|td batch IH]; intros conflicts s conflicts' s' Hpk Hrun.
  - injection Hrun as <- <-. by rewrite app_nil_r.
  - simpl in Hrun. unfold bind at 1 in Hrun. unfold new_records.
    rewrite filter_cons. fold (new_records current_user (persistent s) batch).
    destruct (push_task_cases clk current_user td conflicts s Hpk)
      as [(i & cur & Hi & Hown & Hv & Heq)|[(i & cur & Hi & Hown & Hv & Heq)|[Hno Heq]]];
      rewrite Heq in Hrun.
    + apply IH in Hrun; simpl in *.
      2:{ eapply pk_unique_keys; [|done]. by apply key_insert_assign. }
      rewrite Hrun.
      rewrite (new_records_keys _ (persistent s)) by by apply key_insert_assign.
      rewrite decide_False; [done|]. intros Hk.
      apply (proj2 (not_owned_iff_key current_user td (persistent s)) Hk cur);
        [by eapply list_elem_of_lookup_2 | done].
    + apply IH in Hrun; [|done]. rewrite Hrun.
      rewrite decide_False; [done|]. intros Hk.
      apply (proj2 (not_owned_iff_key current_user td (persistent s)) Hk cur);
        [by eapply list_elem_of_lookup_2 | done].
    + apply IH in Hrun; [|done]. simpl in Hrun. rewrite Hrun.
      rewrite decide_True by by apply not_owned_iff_key.
      csimpl. by rewrite <- app_assoc.
Qed.


(** What a flush that goes through leaves in the table: the rows that were
    there, followed by one inserted row for each pending object. *)
Lemma insert_all_ok_rows clk news : ∀ rows n rows' n',
  insert_all clk news rows n = (Ok rows', n') →
  ∃ added, rows' = rows ++ added ∧
    Forall2 (λ o r, ∃ now, r = Task.inserted now o) news added.
Proof.
  induction news as [|o news IH]; intros rows n rows' n' H; simpl in H.
  - injection H as <- <-. exists []. by rewrite app_nil_r.
  - case_bool_decide; [done|].
    apply IH in H as (added & -> & Hall).
    exists (Task.inserted (func_now_at clk n) o :: added).
    rewrite <- app_assoc. split; [done|]. constructor; [by eexists | done].
Qed.









(** ** Push: a batch of distinct ids *)

Lemma filter_ext_elem {A} (P Q : A → Prop) `{!∀ x, Decision (P x)}
    `{!∀ x, Decision (Q x)} (l : list A) :
  (∀ x, x ∈ l → P x ↔ Q x) → filter P l = filter Q l.
Proof.
  induction l as [|x l IH]; intros Hall; [done|].
  rewrite !filter_cons.
  assert (P x ↔ Q x) as Hx by (apply Hall, list_elem_of_here).
  rewrite IH by (intros y Hy; by apply Hall, list_elem_of_further).
  destruct (decide (P x)), (decide (Q x)); tauto.
Qed.

Lemma stale_held current_user (rows : list Task.t) task_data i cur :
  pk_unique rows → rows !! i = Some cur → owned current_user task_data cur →
  stale current_user rows task_data ↔
  Task.version cur > TaskSync.version task_data.
Proof.
  intros Hpk Hi [Hid Hu]. unfold stale. rewrite Exists_exists. split.
  - intros (r & Hr & [Hrid _] & Hv).
    apply list_elem_of_lookup_1 in Hr as [j Hj].
    assert (j = i) by (apply (pk_unique_lookup rows j i r cur); congruence).
    subst j. congruence.
  - intros Hv. exists cur. split; [by eapply list_elem_of_lookup_2|done].
Qed.

Lemma stale_absent current_user (rows : list Task.t) task_data :
  (∀ r, r ∈ rows → ¬ owned current_user task_data r) →
  ¬ stale current_user rows task_data.
Proof.
  intros Hno (r & Hr & Hown & _)%Exists_exists. by apply (Hno r).
Qed.

(** Overwriting the row of one record does not change whether another
    record, of another id, is stale. *)
Lemma stale_insert_other current_user (rows : list Task.t) i cur td0 now td :
  rows !! i = Some cur → owned current_user td0 cur →
  TaskSync.id td ≠ TaskSync.id td0 →
  stale current_user (<[i := Task.assign td0 now cur]> rows) td ↔
  stale current_user rows td.
Proof.
  intros Hi [Hid0 _] Hne. unfold stale. rewrite !Exists_exists. split.
  - intros (r & Hr & Hown & Hv).
    apply list_elem_of_lookup_1 in Hr as [j Hj].
    destruct (decide (i = j)) as [->|Hij].
    + rewrite list_lookup_insert_eq in Hj by by eapply lookup_lt_Some.
      injection Hj as <-. destruct Hown as [Hid _]. simpl in Hid. congruence.
    + rewrite list_lookup_insert_ne in Hj by done.
      exists r. split; [by eapply list_elem_of_lookup_2|done].
  - intros (r & Hr & Hown & Hv).
    apply list_elem_of_lookup_1 in Hr as [j Hj].
    destruct (decide (i = j)) as [->|Hij].
    + assert (r = cur) by congruence. subst r.
      destruct Hown as [Hid _]. congruence.
    + exists r. split; [|done]. eapply list_elem_of_lookup_2.
      by rewrite list_lookup_insert_ne.
Qed.

Section Distinct.
Context (clk : Clock) (current_user : User.t).

(** With distinct ids every record is decided against the rows as the
    request found them: the conflicts are the stale records, in batch order. *)
Lemma for_each_push_distinct_conflicts batch : ∀ conflicts s conflicts' s',
  pk_unique (persistent s) → NoDup (TaskSync.id <$> batch) →
  for_each (push_task clk current_user) batch conflicts s
    = (Ok conflicts', s') →
  conflicts' =
    conflicts ++
    (TaskSync.id <$> filter (stale current_user (persistent s)) batch).
Proof.
  induction batch as [|td batch IH]; intros conflicts s conflicts' s' Hpk Hnd Hrun.
  - injection Hrun as <- <-. by rewrite app_nil_r.
  - simpl in Hrun. unfold bind at 1 in Hrun.
    csimpl in Hnd. apply NoDup_cons in Hnd as [Hfirst Hnd].
    rewrite filter_cons.
    destruct (push_task_cases clk current_user td conflicts s Hpk)
      as [(i & cur & Hi & Hown & Hv & Heq)|[(i & cur & Hi & Hown & Hv & Heq)|[Hno Heq]]];
      rewrite Heq in Hrun.
    + apply IH in Hrun; [|by eapply pk_unique_keys; [apply key_insert_assign|]|done].
      simpl in Hrun. rewrite Hrun.
      rewrite decide_False by (rewrite (stale_held _ _ _ i cur); [lia|done..]).
      do 2 f_equal. apply filter_ext_elem. intros td' Htd'.
      apply stale_insert_other; [done..|].
      intros Heq'. apply Hfirst. rewrite <- Heq'. by apply list_elem_of_fmap_2.
    + apply IH in Hrun; [|done..]. rewrite Hrun.
      rewrite decide_True by (by rewrite (stale_held _ _ _ i cur)).
      csimpl. by rewrite <- app_assoc.
    + apply IH in Hrun; [|done..]. simpl in Hrun. rewrite Hrun.
      by rewrite decide_False by by apply stale_absent.
Qed.

(** And the row a record names ends up either as it was, when the record is
    stale, or overwritten by it. *)
Lemma for_each_push_distinct_rows batch : ∀ conflicts s conflicts' s' j r td,
  pk_unique (persistent s) → NoDup (TaskSync.id <$> batch) →
  for_each (push_task clk current_user) batch conflicts s
    = (Ok conflicts', s') →
  persistent s !! j = Some r → td ∈ batch → owned current_user td r →
  ∃ n, persistent s' !! j =
    Some (if decide (Task.version r > TaskSync.version td)
          then r else Task.assign td (utcnow_at clk n) r).
Proof.
  induction batch as [|td0 batch IH];
    intros conflicts s conflicts' s' j r td Hpk Hnd Hrun Hj Htd Hown.
  - by apply elem_of_nil in Htd.
  - simpl in Hrun. unfold bind at 1 in Hrun.
    csimpl in Hnd. apply NoDup_cons in Hnd as [Hfirst Hnd].
    destruct (push_task_inv clk current_user td0 conflicts s Hpk)
      as (c1 & s1 & Hstep & _ & Hk1 & _).
    rewrite Hstep in Hrun.
    assert (Hpk1 : pk_unique (persistent s1)) by by apply (pk_unique_keys _ _ Hk1).
    apply elem_of_cons in Htd as [->|Htd].
    + (* the record at hand: decided now, left alone afterwards *)
      assert (∃ n, persistent s1 !! j =
                Some (if decide (Task.version r > TaskSync.version td0)
                      then r else Task.assign td0 (utcnow_at clk n) r))
        as [n Hj1].
      { destruct (decide (Task.version r > TaskSync.version td0)) as [Hgt|Hle].
        - rewrite (push_task_conflict clk current_user td0 conflicts s j r)
            in Hstep by done.
          injection Hstep as _ <-. by exists 0%nat.
        - rewrite (push_task_update clk current_user td0 conflicts s j r)
            in Hstep by (done || lia).
          injection Hstep as _ <-. exists (tick s). simpl.
          apply list_lookup_insert_eq. by eapply lookup_lt_Some. }
      exists n.
      destruct (for_each_push_frame clk current_user batch c1 s1 conflicts' s' j _
                  Hpk1 Hrun Hj1) as (r2 & Hj2 & _ & Hsame).
      rewrite Hj2. f_equal. apply Hsame. right.
      destruct Hown as [Hid _].
      replace (Task.id (if decide (Task.version r > TaskSync.version td0)
                        then r else Task.assign td0 (utcnow_at clk n) r))
        with (TaskSync.id td0) by (by destruct (decide _)).
      done.
    + (* a later record: the iteration at hand does not touch its row *)
      destruct (push_task_frame clk current_user td0 conflicts s c1 s1 j r
                  Hpk Hstep Hj) as (r1 & Hj1 & _ & Hsame).
      rewrite Hsame in Hj1.
      2:{ intros [Hid0 _]. destruct Hown as [Hid _]. apply Hfirst.
          rewrite <- Hid0, Hid. by apply list_elem_of_fmap_2. }
      by apply (IH c1 s1 conflicts' s' j r td).
Qed.
End Distinct.

(** After an answered request: where the loop left the session and what the
    flush added. *)
Lemma push_endpoint_ok_inv clk data current_user table t0 resp table' :
  pk_unique table →
  push_endpoint clk data current_user table t0 = (Ok resp, table') →
  ∃ s1 added,
    for_each (push_task clk current_user) (tasks data) [] (open_session table t0)
      = (Ok (conflicts resp), s1) ∧
    success resp = true ∧
    table' = persistent s1 ++ added ∧
    Forall2 (λ o r, ∃ now, r = Task.inserted now o)
      (new_task current_user <$> new_records current_user table (tasks data))
      added.
Proof.
  intros Hpk Hrun.
  destruct (for_each_push_inv clk current_user (tasks data) []
              (open_session table t0) Hpk)
    as (c1 & s1 & Hloop & Hc & _).
  pose proof (for_each_push_pending clk current_user (tasks data) []
                (open_session table t0) c1 s1 Hpk Hloop) as Hpend.
  simpl in Hpend.
  rewrite (push_endpoint_after_loop _ _ _ _ _ c1 s1 Hloop Hc) in Hrun.
  destruct (insert_all clk (pending s1) (persistent s1) (tick s1))
    as [[rows|e] n] eqn:Hins; [|done].
  injection Hrun as <- <-.
  apply insert_all_ok_rows in Hins as (added & -> & Hall).
  exists s1, added. rewrite <- Hpend. done.
Qed.

Lemma push_endpoint_distinct_conflicts clk data current_user table t0 resp table' :
  pk_unique table → NoDup (TaskSync.id <$> tasks data) →
  push_endpoint clk data current_user table t0 = (Ok resp, table') →
  conflicts resp =
    TaskSync.id <$> filter (stale current_user table) (tasks data).
Proof.
  intros Hpk Hnd Hrun.
  destruct (push_endpoint_ok_inv _ _ _ _ _ _ _ Hpk Hrun)
    as (s1 & added & Hloop & _).
  by apply for_each_push_distinct_conflicts in Hloop.
Qed.

(** X8. In an answered request whose batch names every id once, the conflict
    list is exactly the ids of the stale records, those sent at a version
    below the one the caller's row had before the request, in batch order:
    with distinct ids no record's fate depends on the records before it. *)
Theorem push_distinct_batch_conflicts clk data current_user table t0 resp table' :
  pk_unique table → NoDup (TaskSync.id <$> tasks data) →
  push_endpoint clk data current_user table t0 = (Ok resp, table') →
  conflicts resp =
    TaskSync.id <$> filter (stale current_user table) (tasks data).
Proof.
  intros Hpk Hnd Hrun.
  by apply (push_endpoint_distinct_conflicts clk data current_user table t0
              resp table').
Qed.

Lemma push_distinct_batch_conflicts_witness :
  conflicts {| success := true; conflicts := [7%N]; server_time := 1002 |} =
    TaskSync.id <$>
      filter (stale alice [row 7 1 3 5; row 8 1 2 6])
             (tasks (req [rec 7 1; rec 8 9; rec 9 1])).
Proof.
  apply (push_distinct_batch_conflicts clock0 (req [rec 7 1; rec 8 9; rec 9 1])
           alice [row 7 1 3 5; row 8 1 2 6] 0 _
           [row 7 1 3 5;
            Task.assign (rec 8 9) 1000 (row 8 1 2 6);
            Task.inserted 2001 (new_task alice (rec 9 1))]).
  - apply (bool_decide_unpack _). vm_compute. exact I.
  - apply (bool_decide_unpack _). vm_compute. exact I.
  - reflexivity.
Defined.

Lemma push_endpoint_distinct_rows clk data current_user table t0 resp table'
    j r task_data :
  pk_unique table → NoDup (TaskSync.id <$> tasks data) →
  push_endpoint clk data current_user table t0 = (Ok resp, table') →
  table !! j = Some r → task_data ∈ tasks data →
  owned current_user task_data r →
  ∃ n, table' !! j =
    Some (if decide (Task.version r > TaskSync.version task_data)
          then r else Task.assign task_data (utcnow_at clk n) r).
Proof.
  intros Hpk Hnd Hrun Hj Htd Hown.
  destruct (push_endpoint_ok_inv _ _ _ _ _ _ _ Hpk Hrun)
    as (s1 & added & Hloop & _ & -> & _).
  destruct (for_each_push_distinct_rows clk current_user (tasks data) []
              (open_session table t0) (conflicts resp) s1 j r task_data
              Hpk Hnd Hloop Hj Htd Hown) as [n Hn].
  exists n. rewrite lookup_app_l; [done|]. by eapply lookup_lt_Some.
Qed.

(** X9. In an answered request whose batch names every id once, a row of the
    caller's that the batch names is afterwards either exactly as it was,
    when the record was stale, or overwritten by the record: payload as sent,
    version the sent one plus one, [modified_at] a reading of the server
    clock, [created_at] and [project_id] kept. *)
Theorem push_distinct_batch_rows clk data current_user table t0 resp table'
    j r task_data :
  pk_unique table → NoDup (TaskSync.id <$> tasks data) →
  push_endpoint clk data current_user table t0 = (Ok resp, table') →
  table !! j = Some r → task_data ∈ tasks data →
  owned current_user task_data r →
  (Task.version r > TaskSync.version task_data → table' !! j = Some r) ∧
  (Task.version r ≤ TaskSync.version task_data →
   ∃ n, table' !! j = Some (Task.assign task_data (utcnow_at clk n) r)).
Proof.
  intros Hpk Hnd Hrun Hj Htd Hown.
  destruct (push_endpoint_distinct_rows clk data current_user table t0 resp
              table' j r task_data Hpk Hnd Hrun Hj Htd Hown) as [n Hn].
  split.
  - intros Hgt. by rewrite Hn, decide_True.
  - intros Hle. exists n. rewrite Hn, decide_False; [done|lia].
Qed.

Lemma push_distinct_batch_rows_witness :
  (Task.version (row 8 1 2 6) > TaskSync.version (rec 8 9) →
   [row 7 1 3 5; Task.assign (rec 8 9) 1000 (row 8 1 2 6);
    Task.inserted 2001 (new_task alice (rec 9 1))] !! 1%nat
   = Some (row 8 1 2 6)) ∧
  (Task.version (row 8 1 2 6) ≤ TaskSync.version (rec 8 9) →
   ∃ n, [row 7 1 3 5; Task.assign (rec 8 9) 1000 (row 8 1 2 6);
         Task.inserted 2001 (new_task alice (rec 9 1))] !! 1%nat
        = Some (Task.assign (rec 8 9) (utcnow_at clock0 n) (row 8 1 2 6))).
Proof.
  apply (push_distinct_batch_rows clock0 (req [rec 7 1; rec 8 9; rec 9 1])
           alice [row 7 1 3 5; row 8 1 2 6] 0
           {| success := true; conflicts := [7%N]; server_time := 1002 |}).
  - apply (bool_decide_unpack _). vm_compute. exact I.
  - apply (bool_decide_unpack _). vm_compute. exact I.
  - reflexivity.
  - reflexivity.
  - apply list_elem_of_further, list_elem_of_here.
  - split; reflexivity.
Defined.

(** ** Push, then pull *)

(** A conflict is only ever reported for an id the caller holds. *)
Lemma for_each_push_conflicts_held clk current_user batch :
  ∀ conflicts s conflicts' s',
  pk_unique (persistent s) →
  for_each (push_task clk current_user) batch conflicts s
    = (Ok conflicts', s') →
  ∃ more, conflicts' = conflicts ++ more ∧
    (∀ x, x ∈ more → (x, User.id current_user) ∈ key <$> persistent s) ∧
    more `sublist_of` (TaskSync.id <$> batch).
Proof.
  induction batch as [|td batch IH]; intros conflicts s conflicts' s' Hpk Hrun.
  - injection Hrun as <- <-. exists []. rewrite app_nil_r.
    split_and!; [done| |done]. by intros x ?%elem_of_nil.
  - simpl in Hrun. unfold bind at 1 in Hrun.
    destruct (push_task_cases clk current_user td conflicts s Hpk)
      as [(i & cur & Hi & Hown & Hv & Heq)|[(i & cur & Hi & Hown & Hv & Heq)|[Hno Heq]]];
      rewrite Heq in Hrun.
    + apply IH in Hrun as (more & -> & Hheld & Hsub);
        [|by eapply pk_unique_keys; [apply key_insert_assign|]].
      exists more. split_and!; [done| |by apply sublist_cons].
      intros x Hx. specialize (Hheld x Hx).
      simpl in Hheld. by rewrite key_insert_assign in Hheld.
    + apply IH in Hrun as (more & -> & Hheld & Hsub); [|done].
      exists (TaskSync.id td :: more). rewrite <- app_assoc.
      split_and!; [done| |by apply sublist_skip].
      intros x [->|Hx]%elem_of_cons; [|by apply Hheld].
      apply list_elem_of_fmap. exists cur.
      split; [symmetry; by apply owned_key | by eapply list_elem_of_lookup_2].
    + apply IH in Hrun as (more & -> & Hheld & Hsub); [|done].
      exists more. split_and!; [done| |by apply sublist_cons].
      intros x Hx. by apply Hheld in Hx.
Qed.

Lemma to_sync_inserted current_user task_data now :
  Task.to_sync (Task.inserted now (new_task current_user task_data)) = task_data.
Proof. by destruct task_data. Qed.

Lemma to_sync_assign task_data now r :
  Task.id r = TaskSync.id task_data →
  Task.to_sync (Task.assign task_data now r) = bumped task_data.
Proof. intros Hid. unfold Task.to_sync, bumped. simpl. by rewrite Hid. Qed.

Lemma pull_all_returns clk current_user table t1 r :
  r ∈ table → Task.user_id r = User.id current_user →
  ∃ resp, pull_endpoint clk None current_user table t1 = (Ok resp, table) ∧
          Task.to_sync r ∈ pull_tasks resp.
Proof.
  intros Hr Hu. eexists. split; [apply pull_endpoint_eq|]. simpl.
  apply list_elem_of_fmap_2, pull_fetched_elem. by repeat split.
Qed.

(** X10. Create, then pull: after an answered push, whatever else the batch
    held, every record that was new to the caller comes back from a pull
    without cursor exactly as it was sent, version included, and its id is
    not among the conflicts of the push. *)
Theorem pushed_new_record_pulled_verbatim clk clk' data current_user table
    t0 t1 resp table' task_data :
  pk_unique table →
  push_endpoint clk data current_user table t0 = (Ok resp, table') →
  task_data ∈ tasks data →
  (∀ r, r ∈ table → ¬ owned current_user task_data r) →
  ∃ resp',
    pull_endpoint clk' None current_user table' t1 = (Ok resp', table') ∧
    task_data ∈ pull_tasks resp' ∧
    TaskSync.id task_data ∉ conflicts resp.
Proof.
  intros Hpk Hrun Htd Hno.
  destruct (push_endpoint_ok_inv _ _ _ _ _ _ _ Hpk Hrun)
    as (s1 & added & Hloop & _ & -> & Hall).
  assert (Hnew : task_data ∈ new_records current_user table (tasks data)).
  { apply list_elem_of_filter. split; [by apply not_owned_iff_key | done]. }
  apply (list_elem_of_fmap_2 (new_task current_user)) in Hnew.
  apply list_elem_of_lookup_1 in Hnew as [k Hk].
  destruct (Forall2_lookup_l _ _ _ _ _ Hall Hk) as (row' & Hrow' & now & ->).
  destruct (pull_all_returns clk' current_user (persistent s1 ++ added) t1
              (Task.inserted now (new_task current_user task_data)))
    as (resp' & Hpull & Hin).
  { apply elem_of_app. right. by eapply list_elem_of_lookup_2. }
  { done. }
  exists resp'. rewrite to_sync_inserted in Hin. split_and!; [done..|].
  destruct (for_each_push_conflicts_held clk current_user (tasks data) []
              (open_session table t0) (conflicts resp) s1 Hpk Hloop)
    as (more & Hc & Hheld & _).
  simpl in Hc. rewrite Hc. intros Hx. apply Hheld in Hx. simpl in Hx.
  by apply not_owned_iff_key in Hx.
Qed.

Lemma pushed_new_record_pulled_verbatim_witness :
  ∃ resp',
    pull_endpoint clock0 None alice
      [row 7 1 3 5; Task.assign (rec 8 9) 1000 (row 8 1 2 6);
       Task.inserted 2001 (new_task alice (rec 9 1))] 5
    = (Ok resp',
       [row 7 1 3 5; Task.assign (rec 8 9) 1000 (row 8 1 2 6);
        Task.inserted 2001 (new_task alice (rec 9 1))]) ∧
    rec 9 1 ∈ pull_tasks resp' ∧
    TaskSync.id (rec 9 1) ∉
      conflicts {| success := true; conflicts := [7%N]; server_time := 1002 |}.
Proof.
  apply (pushed_new_record_pulled_verbatim clock0 clock0
           (req [rec 7 1; rec 8 9; rec 9 1]) alice
           [row 7 1 3 5; row 8 1 2 6] 0 5).
  - apply (bool_decide_unpack _). vm_compute. exact I.
  - reflexivity.
  - do 2 apply list_elem_of_further. apply list_elem_of_here.
  - intros r Hr [Hid _]. revert Hid.
    apply elem_of_cons in Hr as [->|Hr]; [discriminate|].
    apply list_elem_of_singleton in Hr. subst r. discriminate.
Defined.

Lemma NoDup_fmap_elem_inj {A B} (f : A → B) (l : list A) x y :
  NoDup (f <$> l) → x ∈ l → y ∈ l → f x = f y → x = y.
Proof.
  intros Hnd [i Hi]%list_elem_of_lookup_1 [j Hj]%list_elem_of_lookup_1 Heq.
  assert (i = j).
  { apply (NoDup_lookup (f <$> l) i j (f x)); [done|..].
    - by rewrite list_lookup_fmap, Hi.
    - by rewrite list_lookup_fmap, Hj, Heq. }
  subst j. congruence.
Qed.

(** X11. Update, then pull: after an answered push whose batch names every
    id once, a record naming a row the caller held comes back from a pull
    without cursor as sent but one version up when it was applied (and its id
    is not among the conflicts), while for a stale record the pull still
    returns the server's row as it was and the push listed the id as a
    conflict. *)
Theorem pushed_held_record_pulled clk clk' data current_user table t0 t1
    resp table' r task_data :
  pk_unique table → NoDup (TaskSync.id <$> tasks data) →
  push_endpoint clk data current_user table t0 = (Ok resp, table') →
  r ∈ table → task_data ∈ tasks data → owned current_user task_data r →
  ∃ resp',
    pull_endpoint clk' None current_user table' t1 = (Ok resp', table') ∧
    (Task.version r ≤ TaskSync.version task_data →
     bumped task_data ∈ pull_tasks resp' ∧
     TaskSync.id task_data ∉ conflicts resp) ∧
    (Task.version r > TaskSync.version task_data →
     Task.to_sync r ∈ pull_tasks resp' ∧
     TaskSync.id task_data ∈ conflicts resp).
Proof.
  intros Hpk Hnd Hrun Hr Htd Hown.
  pose proof Hr as Hr'. apply list_elem_of_lookup_1 in Hr' as [j Hj].
  destruct (push_endpoint_distinct_rows clk data current_user table t0 resp
              table' j r task_data Hpk Hnd Hrun Hj Htd Hown) as [n Hn].
  pose proof (push_endpoint_distinct_conflicts clk data current_user table t0
                resp table' Hpk Hnd Hrun) as Hc.
  assert (Hstale : stale current_user table task_data ↔
                   Task.version r > TaskSync.version task_data)
    by by apply (stale_held _ _ _ j r).
  assert (Hcin : TaskSync.id task_data ∈ conflicts resp ↔
                 Task.version r > TaskSync.version task_data).
  { rewrite Hc, <- Hstale. split.
    - intros (td' & Hid & [Hst Hin]%list_elem_of_filter)%list_elem_of_fmap.
      by rewrite (NoDup_fmap_elem_inj TaskSync.id (tasks data) task_data td').
    - intros Hst. apply list_elem_of_fmap_2, list_elem_of_filter. by split. }
  destruct (pull_all_returns clk' current_user table' t1
              (if decide (Task.version r > TaskSync.version task_data)
               then r else Task.assign task_data (utcnow_at clk n) r))
    as (resp' & Hpull & Hin).
  { by eapply list_elem_of_lookup_2. }
  { destruct Hown as [_ Hu]. by destruct (decide _). }
  exists resp'. split; [done|]. split.
  - intros Hle. rewrite decide_False in Hin by lia.
    split; [by rewrite to_sync_assign in Hin by apply Hown|]. rewrite Hcin. lia.
  - intros Hgt. rewrite decide_True in Hin by done.
    split; [done|]. by apply Hcin.
Qed.

Lemma pushed_held_record_pulled_witness :
  ∃ resp',
    pull_endpoint clock0 None alice
      [row 7 1 3 5; Task.assign (rec 8 9) 1000 (row 8 1 2 6);
       Task.inserted 2001 (new_task alice (rec 9 1))] 5
    = (Ok resp',
       [row 7 1 3 5; Task.assign (rec 8 9) 1000 (row 8 1 2 6);
        Task.inserted 2001 (new_task alice (rec 9 1))]) ∧
    (Task.version (row 8 1 2 6) ≤ TaskSync.version (rec 8 9) →
     bumped (rec 8 9) ∈ pull_tasks resp' ∧
     TaskSync.id (rec 8 9) ∉
       conflicts {| success := true; conflicts := [7%N]; server_time := 1002 |}) ∧
    (Task.version (row 8 1 2 6) > TaskSync.version (rec 8 9) →
     Task.to_sync (row 8 1 2 6) ∈ pull_tasks resp' ∧
     TaskSync.id (rec 8 9) ∈
       conflicts {| success := true; conflicts := [7%N]; server_time := 1002 |}).
Proof.
  apply (pushed_held_record_pulled clock0 clock0
           (req [rec 7 1; rec 8 9; rec 9 1]) alice
           [row 7 1 3 5; row 8 1 2 6] 0 5).
  - apply (bool_decide_unpack _). vm_compute. exact I.
  - apply (bool_decide_unpack _). vm_compute. exact I.
  - reflexivity.
  - apply list_elem_of_further, list_elem_of_here.
  - apply list_elem_of_further, list_elem_of_here.
  - split; reflexivity.
Defined.

(** ** Conflicts, whatever the batch *)

(** X12. For any batch, repeated ids included, the conflicts of an answered
    push are ids of the batch in the order the batch has them, and each one
    is the id of a row the caller already held when the request came in; a
    new record or another owner's id is never reported as a conflict. *)
Theorem push_conflicts_are_held_ids clk data current_user table t0 resp table' :
  pk_unique table →
  push_endpoint clk data current_user table t0 = (Ok resp, table') →
  conflicts resp `sublist_of` (TaskSync.id <$> tasks data) ∧
  ∀ x, x ∈ conflicts resp →
    ∃ r, r ∈ table ∧ Task.id r = x ∧ Task.user_id r = User.id current_user.
Proof.
  intros Hpk Hrun.
  destruct (push_endpoint_ok_inv _ _ _ _ _ _ _ Hpk Hrun)
    as (s1 & added & Hloop & _).
  destruct (for_each_push_conflicts_held clk current_user (tasks data) []
              (open_session table t0) (conflicts resp) s1 Hpk Hloop)
    as (more & Hc & Hheld & Hsub).
  simpl in Hc. subst more. split; [done|].
  intros x Hx. apply Hheld in Hx. simpl in Hx.
  apply list_elem_of_fmap in Hx as (r & Hk & Hr).
  exists r. unfold key in Hk. by simplify_eq.
Qed.

Lemma push_conflicts_are_held_ids_witness :
  conflicts {| success := true; conflicts := [7%N; 7%N]; server_time := 1001 |}
    `sublist_of` (TaskSync.id <$> tasks (req [rec 7 5; rec 7 1; rec 7 2])) ∧
  ∀ x, x ∈ conflicts {| success := true; conflicts := [7%N; 7%N];
                        server_time := 1001 |} →
    ∃ r, r ∈ [row 7 1 3 5; row 8 2 2 6] ∧ Task.id r = x ∧
         Task.user_id r = User.id alice.
Proof.
  apply (push_conflicts_are_held_ids clock0 (req [rec 7 5; rec 7 1; rec 7 2])
           alice [row 7 1 3 5; row 8 2 2 6] 0
           {| success := true; conflicts := [7%N; 7%N]; server_time := 1001 |}
           [Task.assign (rec 7 5) 1000 (row 7 1 3 5); row 8 2 2 6]).
  - apply (bool_decide_unpack _). vm_compute. exact I.
  - reflexivity.
Defined.

(** ** What a pull hands out *)

Lemma to_sync_id r : TaskSync.id (Task.to_sync r) = Task.id r.
Proof. done. Qed.

(** X13. Under the primary key a pull never returns two records with the
    same id, with or without cursor, and never more records than the table
    has rows. *)
Theorem pull_ids_distinct clk since current_user table t0 :
  pk_unique table →
  ∃ resp,
    pull_endpoint clk since current_user table t0 = (Ok resp, table) ∧
    NoDup (TaskSync.id <$> pull_tasks resp) ∧
    (length (pull_tasks resp) ≤ length table)%nat.
Proof.
  intros Hpk. eexists. split; [apply pull_endpoint_eq|]. simpl.
  pose proof (pull_fetched_perm since current_user table) as Hperm.
  split.
  - rewrite <- list_fmap_compose.
    change (TaskSync.id ∘ Task.to_sync) with Task.id.
    rewrite Hperm.
    eapply sublist_NoDup; [exact Hpk | apply fmap_sublist, sublist_filter].
  - rewrite length_fmap, Hperm. apply length_filter.
Qed.

Lemma pull_ids_distinct_witness :
  let table := [row 7 1 3 5; row 8 2 2 6; tomb 9 1 1 9; row 6 1 1 4] in
  ∃ resp,
    pull_endpoint clock0 (Some 4) alice table 0 = (Ok resp, table) ∧
    NoDup (TaskSync.id <$> pull_tasks resp) ∧
    (length (pull_tasks resp) ≤ length table)%nat.
Proof.
  intros table.
  apply (pull_ids_distinct clock0 (Some 4) alice
           [row 7 1 3 5; row 8 2 2 6; tomb 9 1 1 9; row 6 1 1 4] 0).
  apply (bool_decide_unpack _). vm_compute. exact I.
Defined.

(** ** Sending a create again *)



(** * Authentication *)

Import Auth.

(** ** Lookups under the UNIQUE constraints *)

Lemma users_scan_none p rows k :
  (∀ r, r ∈ rows → p r = false) → Auth.scan p k rows = [].
Proof.
  revert k. induction rows as [|r rows IH]; intros k Hp; simpl; [done|].
  rewrite (Hp r) by apply list_elem_of_here.
  apply IH. intros r' Hr'. apply Hp. by apply list_elem_of_further.
Qed.

Lemma users_scan_single p rows k i r :
  rows !! i = Some r → p r = true →
  (∀ j r', rows !! j = Some r' → p r' = true → j = i) →
  Auth.scan p k rows = [((k + i)%nat, r)].
Proof.
  revert k i. induction rows as [|r0 rows IH]; intros k i Hi Hp Huniq; [done|].
  destruct i as [|i]; simpl in *.
  - injection Hi as ->. rewrite Hp, Nat.add_0_r. f_equal.
    apply users_scan_none. intros r' [j Hj]%list_elem_of_lookup_1.
    apply not_true_is_false. intros Hr'.
    by specialize (Huniq (S j) r' Hj Hr').
  - destruct (p r0) eqn:Hr0.
    + by specialize (Huniq 0%nat r0 eq_refl Hr0).
    + rewrite (IH (S k) i Hi Hp); [by rewrite Nat.add_succ_r|].
      intros j r' Hj Hr'. specialize (Huniq (S j) r' Hj Hr'). lia.
Qed.

Lemma NoDup_fmap_lookup {A B} (f : A → B) (l : list A) i j x y :
  NoDup (f <$> l) → l !! i = Some x → l !! j = Some y → f x = f y → i = j.
Proof.
  intros Hnd Hi Hj Heq.
  apply (NoDup_lookup (f <$> l) i j (f x)); [done|..].
  - by rewrite list_lookup_fmap, Hi.
  - by rewrite list_lookup_fmap, Hj, Heq.
Qed.

Lemma NoDup_omap_lookup {A B} (f : A → option B) (l : list A) i j x y b :
  NoDup (omap f l) → l !! i = Some x → l !! j = Some y →
  f x = Some b → f y = Some b → i = j.
Proof.
  revert i j. induction l as [|a l IH]; intros i j Hnd Hi Hj Hx Hy; [done|].
  assert (Hin : ∀ k z, l !! k = Some z → f z = Some b → b ∈ omap f l).
  { intros k z Hk Hz. apply list_elem_of_omap. exists z.
    split; [by eapply list_elem_of_lookup_2 | done]. }
  simpl in Hnd. destruct i as [|i], j as [|j]; simpl in *; [done| | |].
  - injection Hi as ->. rewrite Hx in Hnd. apply NoDup_cons in Hnd as [Hno _].
    destruct Hno. by eapply Hin.
  - injection Hj as ->. rewrite Hy in Hnd. apply NoDup_cons in Hnd as [Hno _].
    destruct Hno. by eapply Hin.
  - f_equal. apply IH; try done.
    destruct (f a); [by apply NoDup_cons in Hnd as [_ ?] | done].
Qed.

Lemma by_email_hit email rows i r :
  users_unique rows → rows !! i = Some r → User.email r = email →
  Auth.scan (λ r, bool_decide (User.email r = email)) 0 rows = [(i, r)].
Proof.
  intros (_ & Hemails & _) Hi He.
  rewrite (users_scan_single _ rows 0 i r Hi); [done|by apply bool_decide_eq_true_2|].
  intros j r' Hj Hr'. apply bool_decide_eq_true_1 in Hr'.
  apply (NoDup_fmap_lookup User.email rows j i r' r); congruence.
Qed.

Lemma by_email_miss email rows :
  email ∉ User.email <$> rows →
  Auth.scan (λ r, bool_decide (User.email r = email)) 0 rows = [].
Proof.
  intros Hno. apply users_scan_none. intros r Hr.
  apply bool_decide_eq_false_2. intros <-. apply Hno.
  by apply list_elem_of_fmap_2.
Qed.

Lemma by_apple_id_hit a rows i r :
  users_unique rows → rows !! i = Some r → User.apple_id r = Some a →
  Auth.scan (λ r, bool_decide (User.apple_id r = Some a)) 0 rows = [(i, r)].
Proof.
  intros (_ & _ & Happle) Hi Ha.
  rewrite (users_scan_single _ rows 0 i r Hi); [done|by apply bool_decide_eq_true_2|].
  intros j r' Hj Hr'. apply bool_decide_eq_true_1 in Hr'.
  by apply (NoDup_omap_lookup User.apple_id rows j i r' r a).
Qed.

Lemma by_apple_id_miss a rows :
  Some a ∉ User.apple_id <$> rows →
  Auth.scan (λ r, bool_decide (User.apple_id r = Some a)) 0 rows = [].
Proof.
  intros Hno. apply users_scan_none. intros r Hr.
  apply bool_decide_eq_false_2. intros Ha. apply Hno. rewrite <- Ha.
  by apply list_elem_of_fmap_2.
Qed.

(** ** The service functions and the endpoints, case by case *)

Lemma token_response_eq env clk user s :
  token_response env clk user s =
    (Ok (answer_for env clk user (tick s)),
     {| committed := committed s; persistent := persistent s;
        dirty := dirty s; pending := pending s; tick := S (tick s) |}).
Proof. done. Qed.

Lemma violates_created env clk email h apple_id n (rows : list User.t) :
  email ∉ User.email <$> rows →
  (∀ a, apple_id = Some a → Some a ∉ User.apple_id <$> rows) →
  violates rows (created env clk email h apple_id n) =
    bool_decide (uuid4 env n ∈ User.id <$> rows).
Proof.
  intros He Ha. unfold violates, created. simpl.
  rewrite (bool_decide_eq_false_2 (email ∈ _)) by done.
  destruct apple_id as [a|];
    [rewrite (bool_decide_eq_false_2 (Some a ∈ _)) by by apply Ha|];
    by rewrite !orb_false_r.
Qed.

Lemma create_user_eq env clk email password apple_id (table : list User.t) t0 :
  email ∉ User.email <$> table →
  (∀ a, apple_id = Some a → Some a ∉ User.apple_id <$> table) →
  create_user env clk email password apple_id (open_session table t0) =
    match hashed_for env password t0 with
    | None => (Raise PasslibError, open_session table t0)
    | Some (h, n) =>
        let r := created env clk email h apple_id n in
        if bool_decide (uuid4 env n ∈ User.id <$> table)
        then (Raise IntegrityError,
              {| committed := table; persistent := table; dirty := [];
                 pending := [User.new email h apple_id "free"]; tick := n |})
        else (Ok (length table, r),
              {| committed := table ++ [r]; persistent := table ++ [r];
                 dirty := []; pending := []; tick := S n |})
    end.
Proof.
  intros He Ha.
  assert (Hafter : ∀ h n,
    bind (db_add (User.new email h apple_id "free"))
      (λ ref, bind (db_commit env clk) (λ _, db_refresh ref))
      {| committed := table; persistent := table; dirty := []; pending := [];
         tick := n |} =
    let r := created env clk email h apple_id n in
    if bool_decide (uuid4 env n ∈ User.id <$> table)
    then (Raise IntegrityError,
          {| committed := table; persistent := table; dirty := [];
             pending := [User.new email h apple_id "free"]; tick := n |})
    else (Ok (length table, r),
          {| committed := table ++ [r]; persistent := table ++ [r];
             dirty := []; pending := []; tick := S n |})).
  { intros h n. unfold bind, db_add, db_commit. simpl.
    fold (created env clk email h apple_id n).
    rewrite (violates_created env clk email h apple_id n table He Ha).
    case_bool_decide; [done|]. unfold db_refresh. simpl.
    rewrite Nat.add_0_r.
    by rewrite lookup_app_r, Nat.sub_diag by lia. }
  unfold create_user, hashed_for. unfold bind at 1.
  destruct password as [password|]; [|apply Hafter].
  destruct (truthy password); [|apply Hafter].
  unfold bind at 1, get_password_hash. simpl.
  destruct (pwd_context_hash env t0 password) as [h|]; [|done].
  apply Hafter.
Qed.

Lemma register_endpoint_taken env clk data (table : list User.t) t0 i r :
  users_unique table → table !! i = Some r →
  User.email r = UserRegister.email data →
  register_endpoint env clk data table t0 =
    (Raise (HTTPException 400 "Email already registered"), table).
Proof.
  intros Hwf Hi He.
  unfold register_endpoint, get_db, register, get_user_by_email.
  unfold bind at 1 2, db_execute. simpl.
  by rewrite (by_email_hit _ table i r Hwf Hi He).
Qed.

Lemma register_endpoint_free env clk data (table : list User.t) t0 :
  UserRegister.email data ∉ User.email <$> table →
  register_endpoint env clk data table t0 =
    match hashed_for env (Some (UserRegister.password data)) t0 with
    | None => (Raise PasslibError, table)
    | Some (h, n) =>
        let r := created env clk (UserRegister.email data) h None n in
        if bool_decide (uuid4 env n ∈ User.id <$> table)
        then (Raise IntegrityError, table)
        else (Ok (answer_for env clk r (S n)), table ++ [r])
    end.
Proof.
  intros He.
  destruct (hashed_for env (Some (UserRegister.password data)) t0)
    as [[h n]|] eqn:Hh;
    unfold register_endpoint, get_db, register, get_user_by_email;
    unfold bind at 1 2, db_execute; simpl;
    rewrite (by_email_miss _ table He); simpl; unfold bind at 1;
    change {| committed := table; persistent := table; dirty := [];
              pending := []; tick := t0 |} with (open_session table t0);
    rewrite (create_user_eq env clk _ _ None table t0 He) by done;
    rewrite Hh; [|done].
  simpl. by case_bool_decide.
Qed.

Lemma login_endpoint_unknown env clk data (table : list User.t) t0 :
  UserLogin.email data ∉ User.email <$> table →
  login_endpoint env clk data table t0 =
    (Raise (HTTPException 401 "Incorrect email or password"), table).
Proof.
  intros He.
  unfold login_endpoint, get_db, login, get_user_by_email.
  unfold bind at 1 2, db_execute. simpl.
  by rewrite (by_email_miss _ table He).
Qed.

Lemma login_endpoint_known env clk data (table : list User.t) t0 i r :
  users_unique table → table !! i = Some r →
  User.email r = UserLogin.email data →
  login_endpoint env clk data table t0 =
    match User.hashed_password r with
    | Some h =>
        if truthy h
        then match pwd_context_verify env (UserLogin.password data) h with
             | Some true => (Ok (answer_for env clk r t0), table)
             | Some false =>
                 (Raise (HTTPException 401 "Incorrect email or password"),
                  table)
             | None => (Raise PasslibError, table)
             end
        else (Raise (HTTPException 401 "Incorrect email or password"), table)
    | None => (Raise (HTTPException 401 "Incorrect email or password"), table)
    end.
Proof.
  intros Hwf Hi He.
  unfold login_endpoint, get_db, login, get_user_by_email.
  unfold bind at 1 2, db_execute. simpl.
  rewrite (by_email_hit _ table i r Hwf Hi He). simpl.
  destruct (User.hashed_password r) as [h|]; [|done].
  destruct (truthy h); [|done].
  unfold bind, verify_password.
  by destruct (pwd_context_verify env (UserLogin.password data) h) as [[]|].
Qed.

Lemma apple_endpoint_by_apple_id env clk data (table : list User.t) t0 i r :
  users_unique table → table !! i = Some r →
  User.apple_id r = Some (AppleSignIn.apple_id data) →
  apple_endpoint env clk data table t0 =
    (Ok (answer_for env clk r t0), table).
Proof.
  intros Hwf Hi Ha.
  unfold apple_endpoint, get_db, apple_sign_in, get_user_by_apple_id.
  unfold bind at 1 2 3, db_execute. simpl.
  by rewrite (by_apple_id_hit _ table i r Hwf Hi Ha).
Qed.

Lemma NoDup_fmap_delete {A B} (f : A → B) (l : list A) j x :
  NoDup (f <$> l) → l !! j = Some x → f x ∉ f <$> delete j l.
Proof.
  intros Hnd Hj. rewrite delete_take_drop.
  rewrite <- (take_drop_middle l j x Hj) in Hnd.
  rewrite fmap_app, fmap_cons in Hnd.
  apply NoDup_app in Hnd as (_ & Hleft & Hright).
  apply NoDup_cons in Hright as [Hright _].
  rewrite fmap_app. intros [Hin|Hin]%elem_of_app; [|done].
  apply (Hleft _ Hin). apply list_elem_of_here.
Qed.

Lemma delete_insert_same {A} (l : list A) j x :
  delete j (<[j := x]> l) = delete j l.
Proof.
  revert j. induction l as [|a l IH]; intros [|j]; simpl; try done.
  by rewrite IH.
Qed.

Lemma not_elem_of_fmap_delete {A B} (f : A → B) (l : list A) j y :
  y ∉ f <$> l → y ∉ f <$> delete j l.
Proof.
  intros Hno Hin. apply Hno.
  eapply elem_of_sublist; [done|].
  apply fmap_sublist, sublist_delete.
Qed.

Lemma link_update_ok a (table : list User.t) j r :
  users_unique table → table !! j = Some r →
  Some a ∉ User.apple_id <$> table →
  update_ok (<[j := User.set_apple_id a r]> table) j = true.
Proof.
  intros (Hids & Hemails & _) Hj Ha. unfold update_ok.
  rewrite list_lookup_insert_eq by by eapply lookup_lt_Some.
  rewrite delete_insert_same. unfold violates. simpl.
  rewrite (bool_decide_eq_false_2 (User.id r ∈ _))
    by by apply NoDup_fmap_delete.
  rewrite (bool_decide_eq_false_2 (User.email r ∈ _))
    by by apply NoDup_fmap_delete.
  rewrite (bool_decide_eq_false_2 (Some a ∈ _))
    by by apply not_elem_of_fmap_delete.
  done.
Qed.

Lemma apple_endpoint_by_email env clk data (table : list User.t) t0 j r :
  users_unique table →
  Some (AppleSignIn.apple_id data) ∉ User.apple_id <$> table →
  table !! j = Some r → User.email r = AppleSignIn.email data →
  apple_endpoint env clk data table t0 =
    (Ok (answer_for env clk (User.set_apple_id (AppleSignIn.apple_id data) r) t0),
     <[j := User.set_apple_id (AppleSignIn.apple_id data) r]> table).
Proof.
  intros Hwf Ha Hj He.
  unfold apple_endpoint, get_db, apple_sign_in, get_user_by_apple_id,
    get_user_by_email.
  unfold bind at 1 2 3, db_execute. simpl.
  rewrite (by_apple_id_miss _ table Ha). simpl.
  unfold bind at 1 2, db_execute. simpl.
  rewrite (by_email_hit _ table j r Hwf Hj He). simpl.
  unfold bind, db_set, db_commit, db_refresh. simpl.
  rewrite (link_update_ok _ table j r Hwf Hj Ha). simpl.
  by rewrite list_lookup_insert_eq by by eapply lookup_lt_Some.
Qed.

Lemma apple_endpoint_new env clk data (table : list User.t) t0 :
  Some (AppleSignIn.apple_id data) ∉ User.apple_id <$> table →
  AppleSignIn.email data ∉ User.email <$> table →
  apple_endpoint env clk data table t0 =
    let r := created env clk (AppleSignIn.email data) None
               (Some (AppleSignIn.apple_id data)) t0 in
    if bool_decide (uuid4 env t0 ∈ User.id <$> table)
    then (Raise IntegrityError, table)
    else (Ok (answer_for env clk r (S t0)), table ++ [r]).
Proof.
  intros Ha He.
  unfold apple_endpoint, get_db, apple_sign_in, get_user_by_apple_id,
    get_user_by_email.
  unfold bind at 1 2 3, db_execute. simpl.
  rewrite (by_apple_id_miss _ table Ha). simpl.
  unfold bind at 1 2, db_execute. simpl.
  rewrite (by_email_miss _ table He). simpl.
  change {| committed := table; persistent := table; dirty := [];
            pending := []; tick := t0 |} with (open_session table t0).
  rewrite (create_user_eq env clk _ None _ table t0 He)
    by (by intros a [= <-]).
  simpl. by case_bool_decide.
Qed.

(** ** The constraints are kept *)

Lemma elem_of_fmap_lookup {A B} (f : A → B) (l : list A) y :
  y ∈ f <$> l → ∃ i x, l !! i = Some x ∧ f x = y.
Proof.
  intros (x & -> & [i Hi]%list_elem_of_lookup_1)%list_elem_of_fmap. by exists i, x.
Qed.

Lemma users_unique_snoc (table : list User.t) r :
  users_unique table →
  User.id r ∉ User.id <$> table → User.email r ∉ User.email <$> table →
  (∀ a, User.apple_id r = Some a → Some a ∉ User.apple_id <$> table) →
  users_unique (table ++ [r]).
Proof.
  intros (Hids & Hemails & Happle) Hid He Ha. unfold users_unique.
  rewrite !fmap_app, omap_app. simpl. split_and!.
  - apply NoDup_app. split_and!; [done| |apply NoDup_singleton].
    by intros x Hx ->%list_elem_of_singleton.
  - apply NoDup_app. split_and!; [done| |apply NoDup_singleton].
    by intros x Hx ->%list_elem_of_singleton.
  - destruct (User.apple_id r) as [a|] eqn:Hr; [|by rewrite app_nil_r].
    apply NoDup_app. split_and!; [done| |apply NoDup_singleton].
    intros x Hx ->%list_elem_of_singleton.
    apply list_elem_of_omap in Hx as (r' & Hr' & Hx).
    apply (Ha a eq_refl). rewrite <- Hx. by apply list_elem_of_fmap_2.
Qed.

Lemma users_unique_link a (table : list User.t) j r :
  users_unique table → table !! j = Some r →
  Some a ∉ User.apple_id <$> table →
  users_unique (<[j := User.set_apple_id a r]> table).
Proof.
  intros (Hids & Hemails & Happle) Hj Ha. unfold users_unique.
  rewrite !list_fmap_insert. simpl.
  rewrite !list_insert_id by (by rewrite list_lookup_fmap, Hj).
  split_and!; [done..|].
  rewrite <- (take_drop_middle table j r Hj) in Happle, Ha.
  rewrite <- (take_drop_middle table j r Hj) at 1.
  rewrite insert_app_r_alt by (rewrite length_take; lia).
  replace (j - length (take j table))%nat with 0%nat
    by (apply lookup_lt_Some in Hj; rewrite length_take; lia).
  simpl. rewrite omap_app in *. simpl in *.
  assert (Hfresh : (a ∉ omap User.apple_id (take j table)) ∧
                   (a ∉ omap User.apple_id (drop (S j) table))).
  { split; intros (r' & Hr' & Hx)%list_elem_of_omap; apply Ha;
      rewrite <- Hx; apply list_elem_of_fmap_2, elem_of_app; [by left|].
    right. by apply list_elem_of_further. }
  destruct Hfresh as [Hl Hr].
  apply NoDup_app in Happle as (Hnl & Hdisj & Hnr).
  apply NoDup_app. split_and!; [done| |].
  - intros x Hx [->|Hx']%elem_of_cons; [done|].
    apply (Hdisj x Hx). destruct (User.apple_id r); [by right|done].
  - apply NoDup_cons. split; [done|].
    destruct (User.apple_id r); [by apply NoDup_cons in Hnr as [_ ?]|done].
Qed.

(** ** Every way a request can go *)

Lemma register_endpoint_cases env clk data (table : list User.t) t0 :
  users_unique table →
  ((UserRegister.email data ∈ User.email <$> table) ∧
   register_endpoint env clk data table t0 =
     (Raise (HTTPException 400 "Email already registered"), table)) ∨
  ((UserRegister.email data ∉ User.email <$> table) ∧
   hashed_for env (Some (UserRegister.password data)) t0 = None ∧
   register_endpoint env clk data table t0 = (Raise PasslibError, table)) ∨
  (∃ h n,
     (UserRegister.email data ∉ User.email <$> table) ∧
     hashed_for env (Some (UserRegister.password data)) t0 = Some (h, n) ∧
     (uuid4 env n ∈ User.id <$> table) ∧
     register_endpoint env clk data table t0 = (Raise IntegrityError, table)) ∨
  (∃ h n,
     (UserRegister.email data ∉ User.email <$> table) ∧
     hashed_for env (Some (UserRegister.password data)) t0 = Some (h, n) ∧
     (uuid4 env n ∉ User.id <$> table) ∧
     register_endpoint env clk data table t0 =
       (Ok (answer_for env clk
              (created env clk (UserRegister.email data) h None n) (S n)),
        table ++ [created env clk (UserRegister.email data) h None n])).
Proof.
  intros Hwf.
  destruct (decide (UserRegister.email data ∈ User.email <$> table)) as [Hin|Hno].
  - left. split; [done|].
    apply elem_of_fmap_lookup in Hin as (i & r & Hi & He).
    by apply (register_endpoint_taken env clk data table t0 i r).
  - right. rewrite (register_endpoint_free env clk data table t0 Hno).
    destruct (hashed_for env (Some (UserRegister.password data)) t0)
      as [[h n]|]; [|by left].
    right. simpl. case_bool_decide; [left|right]; by exists h, n.
Qed.

Lemma login_endpoint_cases env clk data (table : list User.t) t0 :
  users_unique table →
  (∃ i r h,
     table !! i = Some r ∧ User.email r = UserLogin.email data ∧
     User.hashed_password r = Some h ∧ truthy h = true ∧
     pwd_context_verify env (UserLogin.password data) h = Some true ∧
     login_endpoint env clk data table t0 =
       (Ok (answer_for env clk r t0), table)) ∨
  (∃ i r h,
     table !! i = Some r ∧ User.email r = UserLogin.email data ∧
     User.hashed_password r = Some h ∧ truthy h = true ∧
     pwd_context_verify env (UserLogin.password data) h = None ∧
     login_endpoint env clk data table t0 = (Raise PasslibError, table)) ∨
  ((∀ i r h,
      table !! i = Some r → User.email r = UserLogin.email data →
      User.hashed_password r = Some h → truthy h = true →
      pwd_context_verify env (UserLogin.password data) h = Some false) ∧
   login_endpoint env clk data table t0 =
     (Raise (HTTPException 401 "Incorrect email or password"), table)).
Proof.
  intros Hwf.
  destruct (decide (UserLogin.email data ∈ User.email <$> table)) as [Hin|Hno].
  - apply elem_of_fmap_lookup in Hin as (i & r & Hi & He).
    rewrite (login_endpoint_known env clk data table t0 i r Hwf Hi He).
    assert (Hsame : ∀ i' r', table !! i' = Some r' →
                     User.email r' = UserLogin.email data → r' = r).
    { intros i' r' Hi' He'. destruct Hwf as (_ & Hemails & _).
      assert (i' = i)
        by (apply (NoDup_fmap_lookup User.email table i' i r' r); congruence).
      congruence. }
    destruct (User.hashed_password r) as [h|] eqn:Hh.
    + destruct (truthy h) eqn:Ht.
      * destruct (pwd_context_verify env (UserLogin.password data) h)
          as [[]|] eqn:Hv.
        -- left. by exists i, r, h.
        -- right. right. split; [|done]. intros i' r' h' Hi' He' Hh' _.
           rewrite (Hsame i' r' Hi' He') in Hh'. congruence.
        -- right. left. by exists i, r, h.
      * right. right. split; [|done]. intros i' r' h' Hi' He' Hh' Ht'.
        rewrite (Hsame i' r' Hi' He') in Hh'. congruence.
    + right. right. split; [|done]. intros i' r' h' Hi' He' Hh' _.
      rewrite (Hsame i' r' Hi' He') in Hh'. congruence.
  - right. right. split; [|by apply login_endpoint_unknown].
    intros i r h Hi He. destruct Hno. rewrite <- He.
    apply list_elem_of_fmap_2. by eapply list_elem_of_lookup_2.
Qed.

Lemma apple_endpoint_cases env clk data (table : list User.t) t0 :
  users_unique table →
  (∃ i r,
     table !! i = Some r ∧
     User.apple_id r = Some (AppleSignIn.apple_id data) ∧
     apple_endpoint env clk data table t0 =
       (Ok (answer_for env clk r t0), table)) ∨
  (∃ j r,
     (Some (AppleSignIn.apple_id data) ∉ User.apple_id <$> table) ∧
     table !! j = Some r ∧ User.email r = AppleSignIn.email data ∧
     apple_endpoint env clk data table t0 =
       (Ok (answer_for env clk
              (User.set_apple_id (AppleSignIn.apple_id data) r) t0),
        <[j := User.set_apple_id (AppleSignIn.apple_id data) r]> table)) ∨
  ((Some (AppleSignIn.apple_id data) ∉ User.apple_id <$> table) ∧
   (AppleSignIn.email data ∉ User.email <$> table) ∧
   (uuid4 env t0 ∈ User.id <$> table) ∧
   apple_endpoint env clk data table t0 = (Raise IntegrityError, table)) ∨
  ((Some (AppleSignIn.apple_id data) ∉ User.apple_id <$> table) ∧
   (AppleSignIn.email data ∉ User.email <$> table) ∧
   (uuid4 env t0 ∉ User.id <$> table) ∧
   apple_endpoint env clk data table t0 =
     (Ok (answer_for env clk
            (created env clk (AppleSignIn.email data) None
               (Some (AppleSignIn.apple_id data)) t0) (S t0)),
      table ++ [created env clk (AppleSignIn.email data) None
                  (Some (AppleSignIn.apple_id data)) t0])).
Proof.
  intros Hwf.
  destruct (decide (Some (AppleSignIn.apple_id data) ∈ User.apple_id <$> table))
    as [Hin|Ha].
  { left. apply elem_of_fmap_lookup in Hin as (i & r & Hi & Hr).
    exists i, r. split_and!; [done..|].
    by apply (apple_endpoint_by_apple_id env clk data table t0 i r). }
  right.
  destruct (decide (AppleSignIn.email data ∈ User.email <$> table)) as [Hin|He].
  { left. apply elem_of_fmap_lookup in Hin as (j & r & Hj & Hr).
    exists j, r. split_and!; [done..|].
    by apply (apple_endpoint_by_email env clk data table t0 j r). }
  right. rewrite (apple_endpoint_new env clk data table t0 Ha He). simpl.
  case_bool_decide; [left|right]; done.
Qed.

Lemma truthy_spec s : truthy s = true ↔ s ≠ EmptyString.
Proof.
  unfold truthy. rewrite negb_true_iff. split.
  - intros Hs ->. by rewrite String.eqb_refl in Hs.
  - intros Hs. by apply String.eqb_neq.
Qed.

(** ** Registration *)

(** X15. Registering an email some account already has is refused with
    status 400, whatever the password, and the table stays as it was. *)
Theorem register_taken_email_refused env clk data (table : list User.t) t0 :
  users_unique table →
  UserRegister.email data ∈ User.email <$> table →
  register_endpoint env clk data table t0 =
    (Raise (HTTPException 400 "Email already registered"), table).
Proof.
  intros Hwf (i & r & Hi & He)%elem_of_fmap_lookup.
  by apply (register_endpoint_taken env clk data table t0 i r).
Qed.

Lemma register_taken_email_refused_witness :
  register_endpoint env0 clock0 (UserRegister.mk "a@x.org" "secret")
    [account 1 "a@x.org" None None; account 2 "b@x.org" (Some "apple-b") None] 0 =
    (Raise (HTTPException 400 "Email already registered"),
     [account 1 "a@x.org" None None; account 2 "b@x.org" (Some "apple-b") None]).
Proof.
  apply (register_taken_email_refused env0 clock0
           (UserRegister.mk "a@x.org" "secret")).
  - apply (bool_decide_unpack _). vm_compute. exact I.
  - apply (bool_decide_unpack _). vm_compute. exact I.
Defined.

(** X16. Registering a free email, when the hash and the new id are
    accepted, appends one account and changes no other row: the account has
    the email sent, tier free, no Apple id, no [last_active_at], and as
    [hashed_password] the hash of the password, or NULL when the password is
    the empty string. The answer names this account. *)
Theorem register_creates_free_account env clk data (table : list User.t) t0 h n :
  UserRegister.email data ∉ User.email <$> table →
  hashed_for env (Some (UserRegister.password data)) t0 = Some (h, n) →
  uuid4 env n ∉ User.id <$> table →
  ∃ r resp,
    register_endpoint env clk data table t0 = (Ok resp, table ++ [r]) ∧
    r = User.mk (uuid4 env n) (UserRegister.email data) None "free"
          (func_now_at clk n) None [] h ∧
    (h = None ↔ UserRegister.password data = EmptyString) ∧
    (∀ p, h = Some p →
          pwd_context_hash env t0 (UserRegister.password data) = Some p) ∧
    resp = answer_for env clk r (S n) ∧
    user_id resp = uuid4 env n ∧ email resp = UserRegister.email data ∧
    tier resp = "free" ∧ token_type resp = "bearer".
Proof.
  intros He Hh Hid.
  exists (created env clk (UserRegister.email data) h None n).
  eexists. split.
  { rewrite (register_endpoint_free env clk data table t0 He), Hh. simpl.
    by rewrite bool_decide_eq_false_2. }
  split; [done|]. split_and!; try done.
  - unfold hashed_for in Hh.
    destruct (truthy (UserRegister.password data)) eqn:Ht.
    + destruct (pwd_context_hash env t0 (UserRegister.password data));
        [|done].
      injection Hh as <- <-. apply truthy_spec in Ht. split; [done|].
      intros Hp. by destruct Ht.
    + injection Hh as <- <-. split; [|done]. intros _.
      destruct (decide (UserRegister.password data = EmptyString)) as [|Hne];
        [done|].
      apply truthy_spec in Hne. congruence.
  - intros p ->. unfold hashed_for in Hh.
    destruct (truthy (UserRegister.password data)); [|done].
    destruct (pwd_context_hash env t0 (UserRegister.password data)); [|done].
    by injection Hh as -> _.
Qed.

Lemma register_creates_free_account_witness :
  ∃ r resp,
    register_endpoint env0 clock0 (UserRegister.mk "c@x.org" "secret")
      [account 1 "a@x.org" None None] 0 =
      (Ok resp, [account 1 "a@x.org" None None] ++ [r]) ∧
    r = User.mk (uuid4 env0 1) "c@x.org" None "free"
          (func_now_at clock0 1) None [] (Some "$2b$secret") ∧
    (Some "$2b$secret" = None ↔ "secret" = EmptyString) ∧
    (∀ p, Some "$2b$secret" = Some p →
          pwd_context_hash env0 0 "secret" = Some p) ∧
    resp = answer_for env0 clock0 r 2 ∧
    user_id resp = uuid4 env0 1 ∧ email resp = "c@x.org" ∧
    tier resp = "free" ∧ token_type resp = "bearer".
Proof.
  apply (register_creates_free_account env0 clock0
           (UserRegister.mk "c@x.org" "secret")
           [account 1 "a@x.org" None None] 0 (Some "$2b$secret") 1).
  - apply (bool_decide_unpack _). vm_compute. exact I.
  - reflexivity.
  - apply (bool_decide_unpack _). vm_compute. exact I.
Defined.

(** ** Failures *)



(** X18. The three endpoints keep the constraints of the table: whatever
    the request and however it ends, afterwards no two accounts share an id,
    an email or an Apple id. *)
Theorem auth_endpoints_keep_constraints env clk (table : list User.t) t0 :
  users_unique table →
  (∀ data, users_unique (snd (register_endpoint env clk data table t0))) ∧
  (∀ data, users_unique (snd (login_endpoint env clk data table t0))) ∧
  (∀ data, users_unique (snd (apple_endpoint env clk data table t0))).
Proof.
  intros Hwf. split_and!; intros data.
  - destruct (register_endpoint_cases env clk data table t0 Hwf)
      as [[_ ->]|[(_ & _ & ->)|[(h & n & _ & _ & _ & ->)|(h & n & He & _ & Hid & ->)]]];
      simpl; try done.
    by apply users_unique_snoc.
  - destruct (login_endpoint_cases env clk data table t0 Hwf)
      as [(i & r & h & _ & _ & _ & _ & _ & ->)|[(i & r & h & _ & _ & _ & _ & _ & ->)|[_ ->]]];
      done.
  - destruct (apple_endpoint_cases env clk data table t0 Hwf)
      as [(i & r & _ & _ & ->)|[(j & r & Ha & Hj & _ & ->)|[(_ & _ & _ & ->)|(Ha & He & Hid & ->)]]];
      simpl; try done.
    + by apply users_unique_link.
    + apply users_unique_snoc; try done. by intros a [= <-].
Qed.

Lemma auth_endpoints_keep_constraints_witness :
  let table := [account 1 "a@x.org" None (Some "$2b$secret");
                account 2 "b@x.org" (Some "apple-b") None] in
  (∀ data, users_unique (snd (register_endpoint env0 clock0 data table 0))) ∧
  (∀ data, users_unique (snd (login_endpoint env0 clock0 data table 0))) ∧
  (∀ data, users_unique (snd (apple_endpoint env0 clock0 data table 0))).
Proof.
  intros table. apply (auth_endpoints_keep_constraints env0 clock0 table 0).
  apply (bool_decide_unpack _). vm_compute. exact I.
Defined.

(** X19. No endpoint removes an account or touches its id, email, tier,
    password hash, timestamps or preferences. Registration and login leave
    every existing row exactly as it is; login changes nothing at all, not
    even [last_active_at]. Apple sign-in changes at most the [apple_id] of
    the one account that has the email sent, and only when no account has
    the Apple id sent. *)
Theorem auth_endpoints_keep_accounts env clk (table : list User.t) t0 j r :
  users_unique table → table !! j = Some r →
  (∀ data, snd (register_endpoint env clk data table t0) !! j = Some r) ∧
  (∀ data, snd (login_endpoint env clk data table t0) = table) ∧
  (∀ data,
     snd (apple_endpoint env clk data table t0) !! j = Some r ∨
     snd (apple_endpoint env clk data table t0) !! j =
       Some (User.set_apple_id (AppleSignIn.apple_id data) r) ∧
     User.email r = AppleSignIn.email data ∧
     Some (AppleSignIn.apple_id data) ∉ User.apple_id <$> table).
Proof.
  intros Hwf Hj.
  assert (Hsnoc : ∀ x, (table ++ [x]) !! j = Some r).
  { intros x. rewrite lookup_app_l; [done|]. by eapply lookup_lt_Some. }
  split_and!; intros data.
  - destruct (register_endpoint_cases env clk data table t0 Hwf)
      as [[_ ->]|[(_ & _ & ->)|[(h & n & _ & _ & _ & ->)|(h & n & _ & _ & _ & ->)]]];
      simpl; done.
  - destruct (login_endpoint_cases env clk data table t0 Hwf)
      as [(i & r' & h & _ & _ & _ & _ & _ & ->)|[(i & r' & h & _ & _ & _ & _ & _ & ->)|[_ ->]]];
      done.
  - destruct (apple_endpoint_cases env clk data table t0 Hwf)
      as [(i & r' & _ & _ & ->)|[(j' & r' & Ha & Hj' & He & ->)|[(_ & _ & _ & ->)|(_ & _ & _ & ->)]]];
      simpl; try (by left).
    destruct (decide (j' = j)) as [->|Hne].
    + right. assert (r' = r) by congruence. subst r'.
      split_and!; [|done..].
      apply list_lookup_insert_eq. by eapply lookup_lt_Some.
    + left. by rewrite list_lookup_insert_ne.
Qed.

Lemma auth_endpoints_keep_accounts_witness :
  let table := [account 1 "a@x.org" None (Some "$2b$secret");
                account 2 "b@x.org" (Some "apple-b") None] in
  let r := account 1 "a@x.org" None (Some "$2b$secret") in
  (∀ data, snd (register_endpoint env0 clock0 data table 0) !! 0%nat = Some r) ∧
  (∀ data, snd (login_endpoint env0 clock0 data table 0) = table) ∧
  (∀ data,
     snd (apple_endpoint env0 clock0 data table 0) !! 0%nat = Some r ∨
     snd (apple_endpoint env0 clock0 data table 0) !! 0%nat =
       Some (User.set_apple_id (AppleSignIn.apple_id data) r) ∧
     User.email r = AppleSignIn.email data ∧
     Some (AppleSignIn.apple_id data) ∉ User.apple_id <$> table).
Proof.
  intros table r.
  apply (auth_endpoints_keep_accounts env0 clock0 table 0 0 r).
  - apply (bool_decide_unpack _). vm_compute. exact I.
  - reflexivity.
Defined.

(** ** Login *)

(** X20. Login is answered exactly when the table has an account with the
    email sent whose [hashed_password] is neither NULL nor empty and is
    accepted by the password context for the password sent; the answer then
    names that account. *)
Theorem login_accepts_iff env clk data (table : list User.t) t0 resp :
  users_unique table →
  fst (login_endpoint env clk data table t0) = Ok resp ↔
  ∃ r h, r ∈ table ∧ User.email r = UserLogin.email data ∧
         User.hashed_password r = Some h ∧ h ≠ EmptyString ∧
         pwd_context_verify env (UserLogin.password data) h = Some true ∧
         resp = answer_for env clk r t0.
Proof.
  intros Hwf.
  destruct (login_endpoint_cases env clk data table t0 Hwf)
    as [(i & r & h & Hi & He & Hh & Ht & Hv & ->)|[(i & r & h & Hi & He & Hh & Ht & Hv & ->)|[Hall ->]]];
    simpl.
  - split.
    + intros [= <-]. exists r, h. apply truthy_spec in Ht.
      split_and!; try done. by eapply list_elem_of_lookup_2.
    + intros (r' & h' & [i' Hi']%list_elem_of_lookup_1 & He' & _ & _ & _ & ->).
      destruct Hwf as (_ & Hemails & _).
      assert (i' = i)
        by (apply (NoDup_fmap_lookup User.email table i' i r' r); congruence).
      congruence.
  - split; [done|].
    intros (r' & h' & [i' Hi']%list_elem_of_lookup_1 & He' & Hh' & _ & Hv' & _).
    destruct Hwf as (_ & Hemails & _).
    assert (i' = i)
      by (apply (NoDup_fmap_lookup User.email table i' i r' r); congruence).
    congruence.
  - split; [done|].
    intros (r' & h' & [i' Hi']%list_elem_of_lookup_1 & He' & Hh' & Ht' & Hv' & _).
    apply truthy_spec in Ht'.
    specialize (Hall i' r' h' Hi' He' Hh' Ht'). congruence.
Qed.

Lemma login_accepts_iff_witness :
  let table := [account 1 "a@x.org" None (Some "$2b$secret");
                account 2 "b@x.org" (Some "apple-b") None] in
  let resp := answer_for env0 clock0
                (account 1 "a@x.org" None (Some "$2b$secret")) 0 in
  fst (login_endpoint env0 clock0 (UserLogin.mk "a@x.org" "secret") table 0)
    = Ok resp ↔
  ∃ r h, r ∈ table ∧
         User.email r = UserLogin.email (UserLogin.mk "a@x.org" "secret") ∧
         User.hashed_password r = Some h ∧ h ≠ EmptyString ∧
         pwd_context_verify env0
           (UserLogin.password (UserLogin.mk "a@x.org" "secret")) h
           = Some true ∧
         resp = answer_for env0 clock0 r 0.
Proof.
  intros table resp.
  apply (login_accepts_iff env0 clock0 (UserLogin.mk "a@x.org" "secret")
           table 0 resp).
  apply (bool_decide_unpack _). vm_compute. exact I.
Defined.

(** X21. An account registered with the empty password has no hash, so no
    password logs into it, the empty one included, whatever the password
    context would say; and as its email is taken, registering it again is
    refused. *)
Theorem empty_password_account_locked env clk e (table : list User.t) t0
    resp table' :
  users_unique table →
  register_endpoint env clk (UserRegister.mk e EmptyString) table t0
    = (Ok resp, table') →
  (∀ env' clk' password t1,
     login_endpoint env' clk' (UserLogin.mk e password) table' t1 =
       (Raise (HTTPException 401 "Incorrect email or password"), table')) ∧
  (∀ env' clk' password t1,
     register_endpoint env' clk' (UserRegister.mk e password) table' t1 =
       (Raise (HTTPException 400 "Email already registered"), table')).
Proof.
  intros Hwf Hrun.
  destruct (register_endpoint_cases env clk (UserRegister.mk e EmptyString)
              table t0 Hwf)
    as [[_ Heq]|[(_ & _ & Heq)|[(h & n & _ & _ & _ & Heq)|(h & n & He & Hh & Hid & Heq)]]];
    rewrite Heq in Hrun; try done.
  injection Hrun as _ <-. simpl in Hh. injection Hh as <- <-.
  simpl in He.
  set (r := created env clk e None None t0).
  assert (Hwf' : users_unique (table ++ [r])).
  { by apply users_unique_snoc. }
  assert (Hr : (table ++ [r]) !! length table = Some r).
  { by rewrite lookup_app_r, Nat.sub_diag by lia. }
  split; intros env' clk' password t1.
  - by rewrite (login_endpoint_known env' clk' (UserLogin.mk e password)
                  (table ++ [r]) t1 (length table) r Hwf' Hr eq_refl).
  - by apply (register_endpoint_taken env' clk' (UserRegister.mk e password)
                (table ++ [r]) t1 (length table) r).
Qed.

Lemma empty_password_account_locked_witness :
  let table' := [account 1 "a@x.org" None (Some "$2b$secret");
                 created env0 clock0 "c@x.org" None None 0] in
  (∀ env' clk' password t1,
     login_endpoint env' clk' (UserLogin.mk "c@x.org" password) table' t1 =
       (Raise (HTTPException 401 "Incorrect email or password"), table')) ∧
  (∀ env' clk' password t1,
     register_endpoint env' clk' (UserRegister.mk "c@x.org" password) table' t1 =
       (Raise (HTTPException 400 "Email already registered"), table')).
Proof.
  intros table'.
  apply (empty_password_account_locked env0 clock0 "c@x.org"
           [account 1 "a@x.org" None (Some "$2b$secret")] 0
           (answer_for env0 clock0 (created env0 clock0 "c@x.org" None None 0) 1)).
  - apply (bool_decide_unpack _). vm_compute. exact I.
  - reflexivity.
Defined.

(** X22. After a registration with a password that is not empty, a login
    with the same email is decided by the password context alone, on the
    hash that registration stored: accepted for the account just created
    when the context verifies the password sent against it, refused with
    401 when it does not (also when the stored hash is the empty string),
    and the table is not changed by the attempt. *)
Theorem register_then_login env clk clk' e password (table : list User.t)
    t0 t1 h :
  users_unique table → e ∉ User.email <$> table →
  truthy password = true →
  pwd_context_hash env t0 password = Some h →
  uuid4 env (S t0) ∉ User.id <$> table →
  ∃ r,
    User.hashed_password r = Some h ∧
    register_endpoint env clk (UserRegister.mk e password) table t0 =
      (Ok (answer_for env clk r (S (S t0))), table ++ [r]) ∧
    ∀ password',
      login_endpoint env clk' (UserLogin.mk e password') (table ++ [r]) t1 =
        if truthy h
        then match pwd_context_verify env password' h with
             | Some true => (Ok (answer_for env clk' r t1), table ++ [r])
             | Some false =>
                 (Raise (HTTPException 401 "Incorrect email or password"),
                  table ++ [r])
             | None => (Raise PasslibError, table ++ [r])
             end
        else (Raise (HTTPException 401 "Incorrect email or password"),
              table ++ [r]).
Proof.
  intros Hwf He Hp Hh Hid.
  set (r := created env clk e (Some h) None (S t0)).
  exists r. split; [done|]. split.
  - rewrite (register_endpoint_free env clk (UserRegister.mk e password)
               table t0 He). simpl.
    rewrite Hp, Hh. simpl. by rewrite bool_decide_eq_false_2.
  - intros password'.
    assert (Hwf' : users_unique (table ++ [r]))
      by by apply users_unique_snoc.
    assert (Hr : (table ++ [r]) !! length table = Some r)
      by by rewrite lookup_app_r, Nat.sub_diag by lia.
    by rewrite (login_endpoint_known env clk' (UserLogin.mk e password')
                  (table ++ [r]) t1 (length table) r Hwf' Hr eq_refl).
Qed.

Lemma register_then_login_witness :
  ∃ r,
    User.hashed_password r = Some "$2b$secret" ∧
    register_endpoint env0 clock0 (UserRegister.mk "c@x.org" "secret")
      [account 1 "a@x.org" None None] 0 =
      (Ok (answer_for env0 clock0 r 2), [account 1 "a@x.org" None None] ++ [r]) ∧
    ∀ password',
      login_endpoint env0 clock0 (UserLogin.mk "c@x.org" password')
        ([account 1 "a@x.org" None None] ++ [r]) 7 =
        if truthy "$2b$secret"
        then match pwd_context_verify env0 password' "$2b$secret" with
             | Some true =>
                 (Ok (answer_for env0 clock0 r 7),
                  [account 1 "a@x.org" None None] ++ [r])
             | Some false =>
                 (Raise (HTTPException 401 "Incorrect email or password"),
                  [account 1 "a@x.org" None None] ++ [r])
             | None => (Raise PasslibError, [account 1 "a@x.org" None None] ++ [r])
             end
        else (Raise (HTTPException 401 "Incorrect email or password"),
              [account 1 "a@x.org" None None] ++ [r]).
Proof.
  apply (register_then_login env0 clock0 clock0 "c@x.org" "secret"
           [account 1 "a@x.org" None None] 0 7 "$2b$secret").
  - apply (bool_decide_unpack _). vm_compute. exact I.
  - apply (bool_decide_unpack _). vm_compute. exact I.
  - reflexivity.
  - reflexivity.
  - apply (bool_decide_unpack _). vm_compute. exact I.
Defined.

(** ** Apple sign-in *)



(** X24. When an account has the Apple id sent, Apple sign-in answers for
    that account and changes nothing, whatever email the request carries:
    the email is not compared, not stored, and may even be the email of
    another account. *)
Theorem apple_id_decides_before_email env clk data (table : list User.t) t0 r :
  users_unique table → r ∈ table →
  User.apple_id r = Some (AppleSignIn.apple_id data) →
  apple_endpoint env clk data table t0 = (Ok (answer_for env clk r t0), table) ∧
  user_id (answer_for env clk r t0) = User.id r ∧
  email (answer_for env clk r t0) = User.email r.
Proof.
  intros Hwf [i Hi]%list_elem_of_lookup_1 Ha. split; [|done].
  by apply (apple_endpoint_by_apple_id env clk data table t0 i r).
Qed.

Lemma apple_id_decides_before_email_witness :
  let table := [account 1 "a@x.org" None (Some "$2b$secret");
                account 2 "b@x.org" (Some "apple-b") None] in
  let r := account 2 "b@x.org" (Some "apple-b") None in
  let data := AppleSignIn.mk "apple-b" "a@x.org" None in
  apple_endpoint env0 clock0 data table 0
    = (Ok (answer_for env0 clock0 r 0), table) ∧
  user_id (answer_for env0 clock0 r 0) = User.id r ∧
  email (answer_for env0 clock0 r 0) = User.email r.
Proof.
  intros table r data.
  apply (apple_id_decides_before_email env0 clock0 data table 0 r).
  - apply (bool_decide_unpack _). vm_compute. exact I.
  - apply list_elem_of_further, list_elem_of_here.
  - reflexivity.
Defined.

(** X25. Apple sign-in is stable: once a sign-in has been answered, every
    later sign-in with the same Apple id, whatever its email, is answered
    for the same account and leaves the table as the first one left it. *)
Theorem apple_sign_in_again_same_account env clk clk' data data'
    (table : list User.t) t0 t1 resp table' :
  users_unique table →
  apple_endpoint env clk data table t0 = (Ok resp, table') →
  AppleSignIn.apple_id data' = AppleSignIn.apple_id data →
  ∃ resp',
    apple_endpoint env clk' data' table' t1 = (Ok resp', table') ∧
    user_id resp' = user_id resp ∧ email resp' = email resp ∧
    tier resp' = tier resp.
Proof.
  intros Hwf Hrun Hsame.
  assert (Hagain : ∀ (rows : list User.t) i r,
            users_unique rows → rows !! i = Some r →
            User.apple_id r = Some (AppleSignIn.apple_id data) →
            apple_endpoint env clk' data' rows t1 =
              (Ok (answer_for env clk' r t1), rows)).
  { intros rows i r Hw Hi Ha. rewrite <- Hsame in Ha.
    by apply (apple_endpoint_by_apple_id env clk' data' rows t1 i r). }
  destruct (apple_endpoint_cases env clk data table t0 Hwf)
    as [(i & r & Hi & Ha & Heq)|[(j & r & Ha & Hj & He & Heq)|[(_ & _ & _ & Heq)|(Ha & He & Hid & Heq)]]];
    rewrite Heq in Hrun; [| | done |]; injection Hrun as <- <-.
  - exists (answer_for env clk' r t1).
    split; [by apply (Hagain table i r)|done].
  - exists (answer_for env clk'
              (User.set_apple_id (AppleSignIn.apple_id data) r) t1).
    split; [|done].
    apply (Hagain _ j (User.set_apple_id (AppleSignIn.apple_id data) r)).
    + by apply users_unique_link.
    + apply list_lookup_insert_eq. by eapply lookup_lt_Some.
    + done.
  - exists (answer_for env clk'
              (created env clk (AppleSignIn.email data) None
                 (Some (AppleSignIn.apple_id data)) t0) t1).
    split; [|done].
    apply (Hagain _ (length table)
             (created env clk (AppleSignIn.email data) None
                (Some (AppleSignIn.apple_id data)) t0)).
    + apply users_unique_snoc; try done. by intros a [= <-].
    + by rewrite lookup_app_r, Nat.sub_diag by lia.
    + done.
Qed.

Lemma apple_sign_in_again_same_account_witness :
  let table' := [account 1 "a@x.org" None (Some "$2b$secret");
                 created env0 clock0 "n@x.org" None (Some "apple-n") 0] in
  let resp := answer_for env0 clock0
                (created env0 clock0 "n@x.org" None (Some "apple-n") 0) 1 in
  ∃ resp',
    apple_endpoint env0 clock0 (AppleSignIn.mk "apple-n" "a@x.org" None)
      table' 9 = (Ok resp', table') ∧
    user_id resp' = user_id resp ∧ email resp' = email resp ∧
    tier resp' = tier resp.
Proof.
  intros table' resp.
  apply (apple_sign_in_again_same_account env0 clock0 clock0
           (AppleSignIn.mk "apple-n" "n@x.org" None)
           (AppleSignIn.mk "apple-n" "a@x.org" None)
           [account 1 "a@x.org" None (Some "$2b$secret")] 0 9).
  - apply (bool_decide_unpack _). vm_compute. exact I.
  - reflexivity.
  - reflexivity.
Defined.

(** ** Tokens *)

(** X26. [create_access_token] signs the claims it is given with [exp] set,
    replacing any [exp] among them and keeping every other claim; [exp] lies
    [expires_delta] after the clock reading when a duration other than zero
    is given, and [access_token_expire_minutes] after it when none is given
    or the one given is zero. The token the endpoints hand out for a user
    carries the text of the user's id as [sub] and expires
    [access_token_expire_minutes] after it was made, which is seven days
    with the default settings. *)
Theorem access_token_expiry env clk data expires_delta user s :
  (∃ to_encode,
     create_access_token env clk data expires_delta s =
       (Ok (jwt_encode env to_encode (jwt_secret (settings env))
              (jwt_algorithm (settings env))),
        {| committed := committed s; persistent := persistent s;
           dirty := dirty s; pending := pending s; tick := S (tick s) |}) ∧
     to_encode !! "exp" =
       Some (Datetime
               (utcnow_at clk (tick s) +
                match expires_delta with
                | Some delta =>
                    if decide (delta = 0)
                    then minutes (access_token_expire_minutes (settings env))
                    else delta
                | None => minutes (access_token_expire_minutes (settings env))
                end)) ∧
     (∀ k, k ≠ "exp" → to_encode !! k = data !! k)) ∧
  (∃ claims resp,
     token_response env clk user s =
       (Ok resp,
        {| committed := committed s; persistent := persistent s;
           dirty := dirty s; pending := pending s; tick := S (tick s) |}) ∧
     access_token resp =
       jwt_encode env claims (jwt_secret (settings env))
         (jwt_algorithm (settings env)) ∧
     claims !! "sub" = Some (Str_of_uuid (User.id user)) ∧
     claims !! "exp" =
       Some (Datetime
               (utcnow_at clk (tick s) +
                minutes (access_token_expire_minutes (settings env)))) ∧
     (settings env = default_settings →
      minutes (access_token_expire_minutes (settings env)) =
        7 * 24 * 3600 * 1000000)).
Proof.
  split.
  - unfold create_access_token.
    destruct expires_delta as [delta|];
      [destruct (decide (delta = 0)) as [->|Hne]|];
      eexists;
      (split; [unfold bind at 1; rewrite ?bool_decide_eq_true_2 by done;
               reflexivity|]);
      (split; [by rewrite lookup_insert_eq|]);
      by intros k Hk; rewrite lookup_insert_ne.
  - exists (claims_for env clk user (tick s)), (answer_for env clk user (tick s)).
    split; [apply token_response_eq|]. split; [done|].
    unfold claims_for. split_and!.
    + by rewrite lookup_insert_ne, lookup_singleton_eq.
    + by rewrite lookup_insert_eq.
    + by intros ->.
Qed.
